(** * Gaussian-process signals of [enterprise.signals.gp_signals]

    A shallow embedding of the class factories of [gp_signals.py] and the
    properties of their column slices, coefficient overlay, FFT prior,
    cross-covariance, wideband timing model and marginalizing solve.

    Conventions of the embedding.
    - numpy [float64] values are idealised as real numbers ([R]); the
      observation times of the wideband model, which are only compared,
      are rationals ([Q]) so that the masks compute.
    - A Python exception is the [Raise] case of [result]; the state an
      object is left in after an exception is not tracked.
    - Python dictionaries that are iterated ([_slices], [_labels], the local
      [basis]) are insertion-ordered association lists ([odict]);
      dictionaries that are only looked up ([params], [sel.masks]) are
      [gmap]s.
    - [signal_base.cache_call], [functools.lru_cache] and
      [signal_base.simplememobyid] memoise the method they decorate; they do
      not belong to this module and the decorated bodies below are what runs
      on a cache miss. *)

From Stdlib Require Import Reals Lra QArith.
From Stdlib Require Import String Ascii OrderedTypeEx.
From stdpp Require Import gmap strings list sorting.

(** ** Exceptions and results *)

Inductive exn : Type :=
  | ValueError (msg : string)
  | TypeError
  | IndexError
  | KeyError
  | AttributeError
  | NotImplementedError (msg : string).

Inductive result (A : Type) : Type :=
  | Ok (a : A)
  | Raise (e : exn).
Arguments Ok {A} a.
Arguments Raise {A} e.

#[global] Instance result_ret : MRet result := fun A a => Ok a.
#[global] Instance result_bind : MBind result := fun A B f m =>
  match m with
  | Ok a => f a
  | Raise e => Raise e
  end.

Definition of_option {A} (e : exn) (o : option A) : result A :=
  match o with
  | Some a => Ok a
  | None => Raise e
  end.

Definition is_ok {A} (r : result A) : bool :=
  match r with
  | Ok _ => true
  | Raise _ => false
  end.

(** ** Insertion-ordered dictionaries *)

Definition odict (V : Type) : Type := list (string * V).

Fixpoint od_get {V} (d : odict V) (k : string) : option V :=
  match d with
  | [] => None
  | (k', v) :: d' => if decide (k' = k) then Some v else od_get d' k
  end.

(** [d[k] = v]: an existing key keeps its position. *)
Fixpoint od_set {V} (d : odict V) (k : string) (v : V) : odict V :=
  match d with
  | [] => [(k, v)]
  | (k', v') :: d' =>
      if decide (k' = k) then (k, v) :: d' else (k', v') :: od_set d' k v
  end.

Definition od_keys {V} (d : odict V) : list string := d.*1.
Definition od_values {V} (d : odict V) : list V := d.*2.

(** ** [sorted] on strings *)

Definition string_le (a b : string) : Prop := Is_true (String.leb a b).
Definition string_lt (a b : string) : Prop := Is_true (String.ltb a b).

#[global] Instance string_le_dec : RelDecision string_le.
Proof. intros a b. unfold string_le. apply _. Defined.
#[global] Instance string_lt_dec : RelDecision string_lt.
Proof. intros a b. unfold string_lt. apply _. Defined.

Definition sorted (l : list string) : list string := merge_sort string_le l.

(** ** numpy arrays of at most two dimensions *)

Record matrix : Type := Matrix { mcols : nat; mrows : list (list R) }.

Inductive ndarray : Type :=
  | Nd0 (x : R)
  | Nd1 (v : list R)
  | Nd2 (m : matrix).

Definition ndim (a : ndarray) : nat :=
  match a with
  | Nd0 _ => 0
  | Nd1 _ => 1
  | Nd2 _ => 2
  end.

Definition np_zeros1 (n : nat) : list R := replicate n 0%R.
Definition np_zeros2 (n m : nat) : matrix :=
  Matrix m (replicate n (np_zeros1 m)).

Definition Rsum (l : list R) : R := foldr Rplus 0%R l.

Definition vdot (u v : list R) : R := Rsum (zip_with Rmult u v).

(** [np.dot(A, c)] for a 2-D [A] and a 1-D [c]. *)
Definition np_dot_mv (A : matrix) (c : list R) : result (list R) :=
  if decide (mcols A = length c)
  then Ok ((fun row => vdot row c) <$> mrows A)
  else Raise (ValueError "shapes not aligned").

Definition count_true (mask : list bool) : nat := length (filter Is_true mask).

(** Columns [a, a + len(new)) of one row replaced. *)
Definition set_cols (row : list R) (a : nat) (new : list R) : list R :=
  take a row ++ new ++ drop (a + length new) row.

(** Rows of [A] selected by [mask] receive, in order, the rows [src]. *)
Fixpoint set_masked_rows (rows : list (list R)) (mask : list bool)
    (a : nat) (src : list (list R)) (bcast : bool) : list (list R) :=
  match rows, mask with
  | row :: rows', true :: mask' =>
      match src with
      | s :: src' =>
          set_cols row a s
            :: set_masked_rows rows' mask' a (if bcast then src else src') bcast
      | [] => row :: set_masked_rows rows' mask' a src bcast
      end
  | row :: rows', false :: mask' =>
      row :: set_masked_rows rows' mask' a src bcast
  | _, _ => rows
  end.

(** [A[mask, a:a+F.shape[1]] = F] with numpy's checks: the boolean index
    must have one entry per row, and [F] must have as many rows as the mask
    selects, or one row, which is broadcast. *)
Definition np_set_block (A : matrix) (mask : list bool) (a : nat)
    (F : matrix) : result matrix :=
  if negb (bool_decide (length mask = length (mrows A))) then Raise IndexError
  else if bool_decide (length (mrows F) = count_true mask)
  then Ok (Matrix (mcols A) (set_masked_rows (mrows A) mask a (mrows F) false))
  else if bool_decide (length (mrows F) = 1)
  then Ok (Matrix (mcols A) (set_masked_rows (mrows A) mask a (mrows F) true))
  else Raise (ValueError "shape mismatch").

(** ** Parameters, pulsars and the callables a signal is built from *)

(** [par_value] is the attribute [value] of the parameter object; it is
    [None] for an object without that attribute, on which reading
    [p.value] raises [AttributeError]. *)
Record parameter : Type := MkPar {
  par_name : string;
  par_value : option ndarray
}.

(** The [params] mapping of a likelihood call: name to sampled value. *)
Abbreviation params_t := (gmap string ndarray).

Definition mask_t : Type := list bool.
Definition labels_t : Type := list R.

(** A bound basis function: [basis(params=..., mask=...)] returns the basis
    block and its labels. *)
Record basis_fn : Type := BasisFn {
  bf_params : list parameter;
  bf_call : params_t -> mask_t -> matrix * labels_t
}.

(** A bound prior function: [prior(labels, params=...)]. *)
Record prior_fn : Type := PriorFn {
  pf_params : list parameter;
  pf_call : labels_t -> params_t -> ndarray
}.

(** [sep.join(l)], and the filter [n for n in names if n]. *)
Fixpoint str_join (sep : string) (l : list string) : string :=
  match l with
  | [] => EmptyString
  | [s] => s
  | s :: l' => s +:+ sep +:+ str_join sep l'
  end.

Definition nonempty (s : string) : bool :=
  match s with
  | EmptyString => false
  | _ => true
  end.

Definition join_names (l : list string) : string :=
  str_join "_" (filter (fun n => Is_true (nonempty n)) l).

(** [sub in s] *)
Definition str_contains (sub s : string) : bool :=
  match String.index 0 sub s with
  | Some _ => true
  | None => false
  end.

Record Pulsar : Type := MkPulsar {
  psr_name : string;
  psr_pos : list R;
  (* fields read by the wideband timing model *)
  psr_toas : list Q;
  psr_stoas : list Q;
  psr_freqs : list R;
  psr_fitpars : list string;
  psr_dm : R;
  psr_flags_pp_dm : list R;
  psr_flags_pp_dme : list R;
  psr_dmx : gmap string (bool * R * Q * Q)
}.

(** [selection(psr).masks]: selection key to boolean mask. *)
Definition selection_t : Type := Pulsar -> gmap string mask_t.

(** [KernelMatrix] of [enterprise.signals.utils]: a prior stored as a
    diagonal (1-D) or as a full matrix (2-D). *)
Definition kernel : Type := ndarray.

(** Modelled from the spec: [KernelMatrix(n)] allocates a prior whose
    dimension is the combined basis's column count (a zero diagonal). *)
Definition KernelMatrix (n : nat) : kernel := Nd1 (np_zeros1 n).

(** ** [BasisGP]: generic GPs with a basis matrix *)

Record BasisGP_obj : Type := MkBasisGP {
  name_ : string;
  _keys : list string;
  _masks : list mask_t;
  _prior : odict prior_fn;
  _bases : odict basis_fn;
  _params : gmap string parameter;
  _coefficients : odict parameter;
  _labels : odict labels_t;
  _basis : option matrix;
  _phi : option kernel;
  _slices : odict (nat * nat)
}.

(** The first loop of [_construct_basis]: every key's basis block and
    labels. *)
Fixpoint eval_bases (bases : odict basis_fn) (params : params_t)
    (kms : list (string * mask_t)) (basis : odict matrix)
    (labels : odict labels_t) : result (odict matrix * odict labels_t) :=
  match kms with
  | [] => Ok (basis, labels)
  | (key, mask) :: rest =>
      bf ← of_option KeyError (od_get bases key);
      let '(F, lab) := bf_call bf params mask in
      eval_bases bases params rest (od_set basis key F) (od_set labels key lab)
  end.

(** The second loop: blocks are written side by side and every key records
    [slice(nctot, nn + nctot)]. *)
Fixpoint place_blocks (basis : odict matrix) (kms : list (string * mask_t))
    (B : matrix) (slices : odict (nat * nat)) (nctot : nat)
    : result (matrix * odict (nat * nat) * nat) :=
  match kms with
  | [] => Ok (B, slices, nctot)
  | (key, mask) :: rest =>
      Fmat ← of_option KeyError (od_get basis key);
      let nn := mcols Fmat in
      B' ← np_set_block B mask nctot Fmat;
      place_blocks basis rest B' (od_set slices key (nctot, nn + nctot))
        (nctot + nn)
  end.

Definition _construct_basis (self : BasisGP_obj) (params : params_t)
    : result BasisGP_obj :=
  let kms := zip (_keys self) (_masks self) in
  '(basis, labels) ← eval_bases (_bases self) params kms [] [];
  let nc := sum_list (mcols <$> od_values basis) in
  mask0 ← of_option IndexError (_masks self !! 0);
  let B0 := np_zeros2 (length mask0) nc in
  let phi := KernelMatrix nc in
  '(B, slices, _) ← place_blocks basis kms B0 [] 0;
  Ok (MkBasisGP (name_ self) (_keys self) (_masks self) (_prior self)
        (_bases self) (_params self) (_coefficients self)
        labels (Some B) (Some phi) slices).

Section BasisGP.
(** The arguments of the class factory [BasisGP(priorFunction,
    basisFunction, coefficients, combine, selection, name)].
    [GPCoefficients size pname] stands for
    [parameter.GPCoefficients(logprior=..., size=size)(pname)], an
    instance of a sampled parameter class. *)
Variable priorFunction : string -> Pulsar -> prior_fn.
Variable basisFunction : string -> Pulsar -> basis_fn.
Variable coefficients : bool.
Variable selection : selection_t.
Variable name : string.
Variable GPCoefficients : nat -> string -> parameter.

Definition register_params (ps : list parameter)
    (d : gmap string parameter) : gmap string parameter :=
  foldl (fun d par => <[par_name par := par]> d) d ps.

(** The loop over [zip(self._keys, self._masks)] of [_do_selection]. *)
Definition bind_functions (psr : Pulsar) (kms : list (string * mask_t))
    : odict prior_fn * odict basis_fn * gmap string parameter :=
  foldl (fun '(prior, bases, pars) '(key, _) =>
           let pname := join_names [psr_name psr; name; key] in
           let pf := priorFunction pname psr in
           let bf := basisFunction pname psr in
           (od_set prior key pf, od_set bases key bf,
            register_params (pf_params pf ++ bf_params bf) pars))
        ([], [], ∅) kms.

(** The loop over [self._keys] that creates the coefficient parameters. *)
Definition make_coefficients (psr : Pulsar) (self : BasisGP_obj)
    : result BasisGP_obj :=
  foldl (fun acc key =>
           self ← acc;
           let pname := join_names [psr_name psr; name; key] in
           '(start, stop) ← of_option KeyError (od_get (_slices self) key);
           let size := stop - start in
           let cpar := GPCoefficients size (pname +:+ "_coefficients") in
           Ok (MkBasisGP (name_ self) (_keys self) (_masks self)
                 (_prior self) (_bases self)
                 (<[par_name cpar := cpar]> (_params self))
                 (od_set (_coefficients self) key cpar)
                 (_labels self) (_basis self) (_phi self) (_slices self)))
        (Ok self) (_keys self).

(** [BasisGP.__init__], that is [_do_selection]. *)
Definition BasisGP_init (psr : Pulsar) : result BasisGP_obj :=
  let masks := selection psr in
  let keys := sorted (map_to_list masks).*1 in
  let mks := (fun key => default [] (masks !! key)) <$> keys in
  let '(prior, bases, pars) := bind_functions psr (zip keys mks) in
  let self :=
    MkBasisGP (psr_name psr +:+ "_" +:+ name) keys mks prior bases pars
      [] [] None None [] in
  if coefficients
  then self' ← _construct_basis self ∅; make_coefficients psr self'
  else Ok self.
End BasisGP.

(** ** Values a method returns, and numpy's assignment and products *)

Inductive pyval : Type :=
  | PyNone
  | PyInt (z : Z)
  | PyFloat (x : R)
  | PyArr (a : ndarray)
  | PyList (l : list string).

(** The value written by [c[a:b] = v] into a region of [n] entries: a 0-d
    value or a single entry is repeated, a 1-D value must have [n] entries,
    and a leading axis of length one is dropped. *)
Definition np_broadcast1 (n : nat) (v : ndarray) : result (list R) :=
  let from_vec (l : list R) :=
    if bool_decide (length l = n) then Ok l
    else match l with
         | [x] => Ok (replicate n x)
         | _ => Raise (ValueError "could not broadcast input array")
         end in
  match v with
  | Nd0 x => Ok (replicate n x)
  | Nd1 l => from_vec l
  | Nd2 m =>
      match mrows m with
      | [l] => from_vec l
      | _ => Raise (ValueError "could not broadcast input array")
      end
  end.

(** [c[a:b] = v] on a 1-D array, for a slice [slice(a, b)] with
    non-negative bounds (clipped to the array as Python does). *)
Definition np_set_slice (c : list R) (slc : nat * nat) (v : ndarray)
    : result (list R) :=
  let a := (slc.1 `min` length c)%nat in
  let b := (slc.2 `min` length c)%nat in
  new ← np_broadcast1 (b - a) v;
  Ok (take a c ++ new ++ drop (a + (b - a)) c).

(** Element-wise binary operation on 1-D arrays with broadcasting. *)
Definition np_map2 (f : R -> R -> R) (u v : list R) : result (list R) :=
  if bool_decide (length u = length v) then Ok (zip_with f u v)
  else match u, v with
       | [x], _ => Ok (f x <$> v)
       | _, [y] => Ok ((fun x => f x y) <$> u)
       | _, _ => Raise (ValueError "operands could not be broadcast together")
       end.

(** [np.dot] of two 1-D arrays. *)
Definition np_dot_vv (u v : list R) : result R :=
  if bool_decide (length u = length v) then Ok (vdot u v)
  else Raise (ValueError "shapes not aligned").

(** ** Methods of the [BasisGP] class *)

Section BasisGP_methods.
(** [coefficients] selects which method definitions the class receives;
    [KernelMatrix_inv phi] stands for [KernelMatrix(phi).inv(logdet=True)],
    and [KernelMatrix_set], [KernelMatrix_inv1] for [.set] and [.inv()]. *)
Variable coefficients : bool.
Variable KernelMatrix_inv : ndarray -> matrix * R.
Variable KernelMatrix_set : kernel -> ndarray -> nat * nat -> kernel.
Variable KernelMatrix_inv1 : kernel -> kernel.
(** [Signal_params self] stands for the property [self.params] that the
    class inherits from [signal_base.Signal]. *)
Variable Signal_params : BasisGP_obj -> list parameter.

Definition getitem {V} (d : odict V) (k : string) : result V :=
  of_option KeyError (od_get d k).

(** [self._slices]: the attribute is created by [_construct_basis], as
    [self._phi] is, and does not exist before. *)
Definition get_slices (self : BasisGP_obj) : result (odict (nat * nat)) :=
  match _phi self with
  | Some _ => Ok (_slices self)
  | None => Raise AttributeError
  end.

Definition _construct_prior (self : BasisGP_obj) (params : params_t)
    : result BasisGP_obj :=
  slices ← get_slices self;
  foldl (fun acc '(key, slc) =>
           self ← acc;
           pf ← getitem (_prior self) key;
           lab ← getitem (_labels self) key;
           phi ← of_option AttributeError (_phi self);
           let phislc := pf_call pf lab params in
           Ok (MkBasisGP (name_ self) (_keys self) (_masks self)
                 (_prior self) (_bases self) (_params self)
                 (_coefficients self) (_labels self) (_basis self)
                 (Some (KernelMatrix_set phi phislc slc)) (_slices self)))
        (Ok self) slices.

(** The Gaussian log-density of the 1-D (diagonal) branch. *)
Definition logprior_diag (c phi : list R) : result R :=
  q ← np_map2 Rdiv (zip_with Rmult c c) phi;
  Ok (- 0.5 * Rsum q - 0.5 * Rsum (ln <$> phi)
      - 0.5 * INR (length phi) * ln (2 * PI))%R.

(** The 2-D (full covariance) branch. *)
Definition logprior_full (c : list R) (phi : matrix) : result R :=
  let '(phiinv, logdet) := KernelMatrix_inv (Nd2 phi) in
  pc ← np_dot_mv phiinv c;
  cpc ← np_dot_vv c pc;
  Ok (- 0.5 * cpc - 0.5 * logdet
      - 0.5 * INR (length (mrows phi)) * ln (2 * PI))%R.

(** [_get_coefficient_logprior(self, key, c, **params)], defined when
    [coefficients] is set.  A 0-d prior has no [shape[0]]. *)
Definition _get_coefficient_logprior (self : BasisGP_obj) (key : string)
    (c : list R) (params : params_t) : result (BasisGP_obj * R) :=
  if coefficients then
    self' ← _construct_basis self params;
    pf ← getitem (_prior self') key;
    lab ← getitem (_labels self') key;
    match pf_call pf lab params with
    | Nd1 phi => v ← logprior_diag c phi; Ok (self', v)
    | Nd2 phi => v ← logprior_full c phi; Ok (self', v)
    | Nd0 _ => Raise IndexError
    end
  else Raise AttributeError.

(** [params[p.name] if p.name in params else p.value] *)
Definition current_value (params : params_t) (p : parameter)
    : result ndarray :=
  match params !! par_name p with
  | Some v => Ok v
  | None => of_option AttributeError (par_value p)
  end.

(** The loop of the coefficient-mode [get_delay] that fills [c]. *)
Definition assemble_c (coefs : odict parameter) (params : params_t)
    (slices : odict (nat * nat)) (c0 : list R) : result (list R) :=
  foldl (fun acc '(key, slc) =>
           c ← acc;
           p ← getitem coefs key;
           v ← current_value params p;
           np_set_slice c slc v)
        (Ok c0) slices.

(** The property [delay_params]: the names of [self.params] that contain
    [_coefficients] in the coefficient class, the empty list in the
    marginalized one. *)
Definition delay_params (self : BasisGP_obj) : list string :=
  if coefficients
  then par_name <$>
         filter (fun pp => Is_true (str_contains "_coefficients" (par_name pp)))
           (Signal_params self)
  else [].

Definition get_delay (self : BasisGP_obj) (params : params_t)
    : result (BasisGP_obj * pyval) :=
  if coefficients then
    self' ← _construct_basis self params;
    B ← of_option AttributeError (_basis self');
    c ← assemble_c (_coefficients self') params (_slices self')
          (np_zeros1 (mcols B));
    d ← np_dot_mv B c;
    Ok (self', PyArr (Nd1 d))
  else Ok (self, PyInt 0).

Definition get_basis (self : BasisGP_obj) (params : params_t)
    : result (BasisGP_obj * option matrix) :=
  if coefficients then Ok (self, None)
  else self' ← _construct_basis self params; Ok (self', _basis self').

Definition get_phi (self : BasisGP_obj) (params : params_t)
    : result (BasisGP_obj * option kernel) :=
  if coefficients then Ok (self, None)
  else
    self1 ← _construct_basis self params;
    self2 ← _construct_prior self1 params;
    Ok (self2, _phi self2).

Definition get_phiinv (self : BasisGP_obj) (params : params_t)
    : result (BasisGP_obj * option kernel) :=
  if coefficients then Ok (self, None)
  else match get_phi self params with
       | Ok (self', phi) => Ok (self', option_map KernelMatrix_inv1 phi)
       | Raise e => Raise e
       end.
End BasisGP_methods.

(** ** Column slices as a tiling *)

(** [tiles a total l]: the half-open ranges of [l] follow one another
    without gap from [a] and end at [total]. *)
Fixpoint tiles (a total : nat) (l : list (nat * nat)) : Prop :=
  match l with
  | [] => a = total
  | (s, e) :: l' => s = a ∧ s ≤ e ∧ tiles e total l'
  end.

(** What [__init__] establishes and no method changes: the keys are in
    strictly increasing order and every key has its mask. *)
Definition BasisGP_inv (self : BasisGP_obj) : Prop :=
  StronglySorted string_lt (_keys self)
  ∧ length (_masks self) = length (_keys self).

(** Key [km.1] with mask [km.2] owns the slice [ks.2], whose width is the
    column count of the key's basis block for [params]. *)
Definition slice_of_block (bases : odict basis_fn) (params : params_t)
    (km : string * mask_t) (ks : string * (nat * nat)) : Prop :=
  ks.1 = km.1
  ∧ ∃ bf, od_get bases km.1 = Some bf
        ∧ ks.2.2 = ks.2.1 + mcols (bf_call bf params km.2).1.

(** In coefficient mode [__init__] gives every key its coefficient
    parameter. *)
Definition coefficients_inv (self : BasisGP_obj) : Prop :=
  ∀ key, key ∈ _keys self → is_Some (od_get (_coefficients self) key).

(** [c[s:e]] *)
Definition np_slice (c : list R) (s e : nat) : list R :=
  take (e - s) (drop s c).

(** ** A small signal used to exercise the definitions

    Three observations, two selection keys: key [a] selects the last two
    observations and has a basis of width two, key [b] selects the first
    observation and has a basis of width one. *)

Definition ex_psr : Pulsar :=
  MkPulsar "J1" [] [] [] [] [] 0%R [] [] ∅.

Definition ex_selection : selection_t := fun _ =>
  <["b" := [true; false; false]]> (<["a" := [false; true; true]]> ∅).

Definition ex_basis (pname : string) (_ : Pulsar) : basis_fn :=
  let w := if decide (pname = "J1_gp_a") then 2 else 1 in
  BasisFn [] (fun _ mask =>
    (Matrix w (replicate (count_true mask) (replicate w 1%R)),
     replicate w 2%R)).

Definition ex_prior (pname : string) (_ : Pulsar) : prior_fn :=
  PriorFn [] (fun lab _ => Nd1 lab).

(** A coefficient parameter is sampled: the object has a name and no
    attribute [value]. *)
Definition ex_GPCoefficients (size : nat) (pname : string) : parameter :=
  MkPar pname None.

Definition ex_init (coefficients : bool) : result BasisGP_obj :=
  BasisGP_init ex_prior ex_basis coefficients ex_selection "gp"
    ex_GPCoefficients ex_psr.

(** Sampled coefficients for key [a] only, and for both keys. *)
Definition ex_params : params_t :=
  {["J1_gp_a_coefficients" := Nd1 [5%R; 7%R]]}.

Definition ex_params_ab : params_t :=
  <["J1_gp_b_coefficients" := Nd1 [3%R]]> ex_params.

(** ** The Gaussian log-densities the coefficient prior is compared with *)

(** [-0.5*sum(c*c/phi) - 0.5*sum(log(phi)) - 0.5*n*log(2*pi)],
    [n = len(phi)]. *)
Definition gaussian_logpdf_diag (c phi : list R) : R :=
  (- 0.5 * Rsum (zip_with (fun ci p => ci * ci / p) c phi)
   - 0.5 * Rsum (ln <$> phi)
   - 0.5 * INR (length phi) * ln (2 * PI))%R.

(** [-0.5*c^T*phiinv*c - 0.5*logdet - 0.5*n*log(2*pi)] for an inverse
    [phiinv] and a log-determinant [logdet] of a prior with [n] rows. *)
Definition gaussian_logpdf_full (c : list R) (phiinv : matrix) (logdet : R)
    (n : nat) : R :=
  (- 0.5 * vdot c ((fun row => vdot row c) <$> mrows phiinv)
   - 0.5 * logdet
   - 0.5 * INR n * ln (2 * PI))%R.

(** Modelled from the spec: [KernelMatrix(phi).inv(logdet=True)] for a
    diagonal covariance stored as a full matrix with one row and one
    column; used to run the full-covariance branch on an example. *)
Definition ex_KernelMatrix_inv (phi : ndarray) : matrix * R :=
  match phi with
  | Nd2 (Matrix 1 [[x]]) => (Matrix 1 [[(1 / x)%R]], ln x)
  | _ => (Matrix 0 [], 0%R)
  end.

(** ** Element-wise operations with numpy's broadcasting *)

(** The shape of an array of at most two dimensions, padded on the left
    with ones as broadcasting pads it. *)
Definition nd_shape2 (a : ndarray) : nat * nat :=
  match a with
  | Nd0 _ => (1, 1)
  | Nd1 v => (1, length v)
  | Nd2 m => (length (mrows m), mcols m)
  end.

(** Entry [k] of a list that is stretched when it has one entry. *)
Definition bpick {A} (l : list A) (k : nat) : option A :=
  l !! (if bool_decide (length l = 1) then 0 else k).

(** Entry [(i, j)] of the array stretched along its axes of length one. *)
Definition nd_at (a : ndarray) (i j : nat) : R :=
  match a with
  | Nd0 x => x
  | Nd1 v => default 0%R (bpick v j)
  | Nd2 m => default 0%R (row ← bpick (mrows m) i; bpick row j)
  end.

(** Two axis lengths broadcast when they agree or one of them is one. *)
Definition bdim (n m : nat) : option nat :=
  if bool_decide (n = m) then Some n
  else if bool_decide (n = 1) then Some m
  else if bool_decide (m = 1) then Some n
  else None.

(** [a op b] for an element-wise binary operator of numpy. *)
Definition np_binop (f : R -> R -> R) (a b : ndarray) : result ndarray :=
  match bdim (nd_shape2 a).1 (nd_shape2 b).1,
        bdim (nd_shape2 a).2 (nd_shape2 b).2 with
  | Some r, Some c =>
      let row i := (fun j => f (nd_at a i j) (nd_at b i j)) <$> seq 0 c in
      Ok (match ndim a `max` ndim b with
          | 0 => Nd0 (f (nd_at a 0 0) (nd_at b 0 0))
          | 1 => Nd1 (row 0)
          | _ => Nd2 (Matrix c (row <$> seq 0 r))
          end)
  | _, _ => Raise (ValueError "operands could not be broadcast together")
  end.

Definition np_mul : ndarray -> ndarray -> result ndarray := np_binop Rmult.

(** [np.abs(a)] *)
Definition np_abs (a : ndarray) : ndarray :=
  match a with
  | Nd0 x => Nd0 (Rabs x)
  | Nd1 v => Nd1 (Rabs <$> v)
  | Nd2 m => Nd2 (Matrix (mcols m) ((fun row : list R => Rabs <$> row) <$> mrows m))
  end.

Definition mcol (m : matrix) (j : nat) : list R :=
  (fun row => default 0%R (row !! j)) <$> mrows m.

(** [np.dot(B, c)] for a 2-D [B]: a scalar scales [B], a vector gives the
    matrix-vector product and a matrix the matrix product. *)
Definition np_dot (B : matrix) (c : ndarray) : result ndarray :=
  match c with
  | Nd0 x => Ok (Nd2 (Matrix (mcols B)
                  ((fun row : list R => (fun v => v * x)%R <$> row) <$> mrows B)))
  | Nd1 v => d ← np_dot_mv B v; Ok (Nd1 d)
  | Nd2 m =>
      if decide (mcols B = length (mrows m))
      then Ok (Nd2 (Matrix (mcols m)
                  ((fun row => (fun j => vdot row (mcol m j)) <$> seq 0 (mcols m))
                     <$> mrows B)))
      else Raise (ValueError "shapes not aligned")
  end.

(** ** [BasisCommonGP]: GPs that are correlated between pulsars *)

(** A bound overlap reduction function: [orf(pos1, pos2, params=...)]. *)
Record orf_fn : Type := OrfFn {
  of_params : list parameter;
  of_call : list R -> list R -> params_t -> ndarray
}.

(** A bound basis function of a common signal: [basis(params=...)]. *)
Record common_basis_fn : Type := CBasisFn {
  cbf_params : list parameter;
  cbf_call : params_t -> matrix * labels_t
}.

(** The argument [coefficients] of the factory: [False], [True], or an
    instantiated coefficient parameter. *)
Inductive coefficients_arg : Type :=
  | CoefFalse
  | CoefTrue
  | CoefParameter (p : parameter).

Definition truthy (c : coefficients_arg) : bool :=
  match c with
  | CoefFalse => false
  | _ => true
  end.

Module BasisCommonGP.

Record obj : Type := Mk {
  name_ : string;
  _bases : common_basis_fn;
  _params : gmap string parameter;
  _coefficients : odict parameter;
  _psrpos : list R;
  _basis : option matrix;
  _labels : option labels_t
}.

Section factory.
(** The arguments of [BasisCommonGP(priorFunction, basisFunction,
    orfFunction, coefficients, combine, name)]; [GPCoefficients] and
    [Signal_params] are as for [BasisGP]. *)
Variable priorFunction : string -> prior_fn.
Variable basisFunction : string -> Pulsar -> common_basis_fn.
Variable orfFunction : string -> orf_fn.
Variable coefficients : coefficients_arg.
Variable name : string.
Variable GPCoefficients : nat -> string -> parameter.
Variable Signal_params : obj -> list parameter.

(** The class attributes [_orf] and [_prior], shared by all instances. *)
Definition _orf : orf_fn := orfFunction name.
Definition _prior : prior_fn := priorFunction name.

Definition set_basis (self : obj) (B : matrix) (lab : labels_t) : obj :=
  Mk (name_ self) (_bases self) (_params self) (_coefficients self)
    (_psrpos self) (Some B) (Some lab).

Definition _construct_basis (self : obj) (params : params_t) : obj :=
  let '(B, lab) := cbf_call (_bases self) params in set_basis self B lab.

Definition set_coefficient (self : obj) (cpar : parameter) : obj :=
  Mk (name_ self) (_bases self) (<[par_name cpar := cpar]> (_params self))
    (od_set (_coefficients self) EmptyString cpar)
    (_psrpos self) (_basis self) (_labels self).

Definition __init__ (psr : Pulsar) : result obj :=
  let pname := str_join "_" [psr_name psr; name] in
  let bases := basisFunction pname psr in
  let pars :=
    register_params
      (pf_params _prior ++ of_params _orf ++ cbf_params bases) ∅ in
  let self :=
    Mk (psr_name psr +:+ "_" +:+ name) bases pars [] (psr_pos psr)
      None None in
  match coefficients with
  | CoefFalse => Ok self
  | CoefParameter p => Ok (set_coefficient (_construct_basis self ∅) p)
  | CoefTrue =>
      let self' := _construct_basis self ∅ in
      B ← of_option AttributeError (_basis self');
      Ok (set_coefficient self'
            (GPCoefficients (mcols B) (pname +:+ "_coefficients")))
  end.

Definition _construct_prior (self : obj) (params : params_t)
    : result ndarray :=
  lab ← of_option AttributeError (_labels self);
  Ok (pf_call _prior lab params).

Definition delay_params (self : obj) : list string :=
  if truthy coefficients
  then par_name <$>
         filter (fun pp => Is_true (str_contains "_coefficients" (par_name pp)))
           (Signal_params self)
  else [].

Definition get_delay (self : obj) (params : params_t)
    : result (obj * pyval) :=
  if truthy coefficients then
    let self' := _construct_basis self params in
    p ← of_option KeyError (od_get (_coefficients self') EmptyString);
    c ← current_value params p;
    B ← of_option AttributeError (_basis self');
    d ← np_dot B c;
    Ok (self', PyArr d)
  else Ok (self, PyInt 0).

Definition get_basis (self : obj) (params : params_t)
    : obj * option matrix :=
  if truthy coefficients then (self, None)
  else let self' := _construct_basis self params in (self', _basis self').

Definition get_phi (self : obj) (params : params_t)
    : result (obj * option ndarray) :=
  if truthy coefficients then Ok (self, None)
  else
    let self' := _construct_basis self params in
    prior ← _construct_prior self' params;
    let orf := of_call _orf (_psrpos self') (_psrpos self') params in
    phi ← np_mul prior orf;
    Ok (self', Some phi).

(** The class method [get_phicross(signal1, signal2, params)]; in the
    coefficient class it is a plain method that returns [None]. *)
Definition get_phicross (signal1 signal2 : obj) (params : params_t)
    : result (option ndarray) :=
  if truthy coefficients then Ok None
  else
    lab ← of_option AttributeError (_labels signal1);
    let prior := pf_call _prior lab params in
    let orf := of_call _orf (_psrpos signal1) (_psrpos signal2) params in
    phi ← np_mul prior orf;
    Ok (Some phi).
End factory.

End BasisCommonGP.

(** ** [WidebandTimingModel]: timing model with wideband TOAs and DMs *)

(** [sorted(sel.masks.keys())] and the masks in that order. *)
Definition sel_keys_masks (sel : gmap string mask_t)
    : list string * list mask_t :=
  let keys := sorted (map_to_list sel).*1 in
  (keys, (fun key => default [] (sel !! key)) <$> keys).

(** [l.index(k)] of a Python list. *)
Fixpoint py_index (l : list string) (k : string) : result nat :=
  match l with
  | [] => Raise (ValueError "is not in list")
  | x :: l' => if decide (x = k) then Ok 0 else i ← py_index l' k; Ok (S i)
  end.

(** [check += which] for an integer array [check] and a boolean array
    [which]: the right-hand side must have the shape of [check] or one
    entry. *)
Definition np_iadd_mask (check : list Z) (which : mask_t)
    : result (list Z) :=
  if bool_decide (length which = length check)
  then Ok (zip_with (fun c b => (c + Z.b2z b)%Z) check which)
  else match which with
       | [b] => Ok ((fun c => (c + Z.b2z b)%Z) <$> check)
       | _ => Raise (ValueError "operands could not be broadcast together")
       end.

Definition np_sum_Z (l : list Z) : Z := foldr Z.add 0%Z l.

(** [(r1 <= stoa / 86400) & (stoa / 86400 < r2)] *)
Definition in_interval (r1 r2 stoa : Q) : bool :=
  Qle_bool r1 (stoa / 86400) && negb (Qle_bool r2 (stoa / 86400)).

Module WidebandTimingModel.

(** [base] holds the attributes that [BasisGP.__init__] sets, with
    [_params] as the constructor below replaces it. *)
Record obj : Type := Mk {
  base : BasisGP_obj;
  _dm_keys : list string;
  _dm_masks : list mask_t;
  _dmjump_keys : list string;
  _dmjump_masks : list mask_t;
  _dmefacs : list parameter;
  _log10_dmequads : list parameter;
  _dmjumps : list parameter;
  _ntoas : nat;
  _npars : nat;
  _freqs : list R;
  _dmpar : R;
  _dm : list R;
  _dmerr : list R;
  _dmx : list R;
  _dmindex : list nat;
  _dmwhich : list mask_t;
  _ndmx : nat
}.

Section factory.
(** The arguments of [WidebandTimingModel(dmefac, log10_dmequad, dmjump,
    selection, dmjump_selection, dmjump_ref, name)]: a parameter class is
    the function that instantiates it under a name, and [None] is a
    possible value of [log10_dmequad], [dmjump] and [dmjump_ref]. *)
Variable dmefac : string -> parameter.
Variable log10_dmequad : option (string -> parameter).
Variable dmjump : option (string -> parameter).
Variable selection : selection_t.
Variable dmjump_selection : selection_t.
Variable dmjump_ref : option string.
Variable name : string.
(** [utils.unnormed_tm_basis()], [utils.tm_prior()] and the default
    selection [Selection(selections.no_selection)] of [BasisGP]. *)
Variable unnormed_tm_basis : string -> Pulsar -> basis_fn.
Variable tm_prior : string -> Pulsar -> prior_fn.
Variable no_selection : selection_t.
Variable GPCoefficients : nat -> string -> parameter.

(** [BaseClass = BasisGP(prior, basis, coefficients=False, name=name)] *)
Definition BaseClass_init (psr : Pulsar) : result BasisGP_obj :=
  BasisGP_init tm_prior unnormed_tm_basis false no_selection name
    GPCoefficients psr.

(** The loop that creates the DMEFAC and DMEQUAD parameters. *)
Definition dm_params (psr : Pulsar) (keys : list string)
    : list parameter * list parameter * gmap string parameter :=
  foldl (fun '(efacs, equads, pars) key =>
           let efac := dmefac (join_names [psr_name psr; key; "dmefac"]) in
           let pars := <[par_name efac := efac]> pars in
           match log10_dmequad with
           | Some mk =>
               let equad :=
                 mk (join_names [psr_name psr; key; "log10_dmequad"]) in
               (efacs ++ [efac], equads ++ [equad],
                <[par_name equad := equad]> pars)
           | None => (efacs ++ [efac], equads, pars)
           end)
        ([], [], ∅) keys.

(** The loop that creates the DMJUMP parameters; the reference key gets
    [parameter.Constant(val=0.0)]. *)
Definition dmjump_params (psr : Pulsar) (keys : list string)
    (pars : gmap string parameter)
    : list parameter * gmap string parameter :=
  match dmjump with
  | None => ([], pars)
  | Some mk =>
      foldl (fun '(jumps, pars) key =>
               let pname := join_names [psr_name psr; key; "dmjump"] in
               let param :=
                 if bool_decide (dmjump_ref = Some key)
                 then MkPar pname (Some (Nd0 0%R)) else mk pname in
               (jumps ++ [param], <[par_name param := param]> pars))
            ([], pars) keys
  end.

(** One round of the loop over [sorted(psr.dmx)]. *)
Definition dmx_step (psr : Pulsar)
    (acc : result (list R * list nat * list mask_t * list Z))
    (key : string) : result (list R * list nat * list mask_t * list Z) :=
  '(dmxs, idxs, whichs, check) ← acc;
  '(fit, DMX, DMXR1, DMXR2) ← of_option KeyError (psr_dmx psr !! key);
  if negb fit
  then Raise (ValueError
                "WidebandTimingModel: all DMX parameters must be estimated.")
  else
    i ← py_index (psr_fitpars psr) key;
    let which := in_interval DMXR1 DMXR2 <$> psr_stoas psr in
    check' ← np_iadd_mask check which;
    Ok (dmxs ++ [DMX], idxs ++ [i], whichs ++ [which], check').

Definition assign_dmx (psr : Pulsar)
    : result (list R * list nat * list mask_t * list Z) :=
  foldl (dmx_step psr)
    (Ok ([], [], [], replicate (length (psr_toas psr)) 0%Z))
    (sorted (map_to_list (psr_dmx psr)).*1).

Definition set_params (b : BasisGP_obj) (pars : gmap string parameter)
    : BasisGP_obj :=
  MkBasisGP (name_ b) (_keys b) (_masks b) (_prior b) (_bases b) pars
    (_coefficients b) (_labels b) (_basis b) (_phi b) (_slices b).

Definition __init__ (psr : Pulsar) : result obj :=
  b ← BaseClass_init psr;
  let '(dm_keys, dm_masks) := sel_keys_masks (selection psr) in
  let '(dmjump_keys, dmjump_masks) :=
    sel_keys_masks (dmjump_selection psr) in
  if bool_decide (dmjump_keys = [EmptyString]) && bool_decide (is_Some dmjump)
  then Raise (ValueError
     "WidebandTimingModel: can only do DMJUMP with more than one selection.")
  else
    let '(efacs, equads, pars) := dm_params psr dm_keys in
    let '(jumps, pars) := dmjump_params psr dmjump_keys pars in
    let ntoas := length (psr_toas psr) in
    '(dmxs, idxs, whichs, check) ← assign_dmx psr;
    if negb (bool_decide (np_sum_Z check = Z.of_nat ntoas))
    then Raise (ValueError
       "WidebandTimingModel: cannot account for all TOAs in DMX intervals.")
    else if bool_decide ("DM" ∈ psr_fitpars psr)
    then Raise (ValueError "WidebandTimingModel: DM must not be estimated.")
    else Ok (Mk (set_params b pars) dm_keys dm_masks dmjump_keys
               dmjump_masks efacs equads jumps ntoas
               (length (psr_fitpars psr)) (psr_freqs psr) (psr_dm psr)
               (psr_flags_pp_dm psr) (psr_flags_pp_dme psr)
               dmxs idxs whichs (length dmxs)).

(** The property [delay_params]: all DMEFACs, DMEQUADs and DMJUMPs. *)
Definition delay_params (self : obj) : list string :=
  (par_name <$> _dmefacs self) ++ (par_name <$> _log10_dmequads self)
  ++ (par_name <$> _dmjumps self).
End factory.

End WidebandTimingModel.

(** *** A wideband pulsar with two observations and two DMX intervals

    The observations are at day 1/2 and day 5; the intervals
    [DMX_0001 = [0, 1)] and [DMX_0002 = [1/4, 2)] both contain the first
    observation and neither contains the second. *)

(** One selection key, the empty string, whose mask selects every
    observation: what [selections.no_selection] returns. *)
Definition ex_no_selection : selection_t := fun psr =>
  {[EmptyString := replicate (length (psr_toas psr)) true]}.

Definition ex_wb_dmx : gmap string (bool * R * Q * Q) :=
  <["DMX_0002" := (true, 0%R, 1 # 4, 2 # 1)]>
    (<["DMX_0001" := (true, 0%R, 0 # 1, 1 # 1)]> ∅).

Definition ex_wb_psr : Pulsar :=
  MkPulsar "J1" [] [43200 # 1; 432000 # 1] [43200 # 1; 432000 # 1]
    [1400%R; 1400%R] ["DMX_0001"; "DMX_0002"] 10%R [10%R; 10%R]
    [1%R; 1%R] ex_wb_dmx.

Definition ex_tm_basis (pname : string) (psr : Pulsar) : basis_fn :=
  BasisFn [] (fun _ mask =>
    (Matrix (length (psr_fitpars psr))
       (replicate (count_true mask)
          (replicate (length (psr_fitpars psr)) 1%R)),
     replicate (length (psr_fitpars psr)) 0%R)).

Definition ex_tm_prior (pname : string) (_ : Pulsar) : prior_fn :=
  PriorFn [] (fun lab _ => Nd1 ((fun _ => 1e40%R) <$> lab)).

(** [WidebandTimingModel(dmjump=None)] with constant DMEFAC and DMEQUAD
    parameters. *)
Definition ex_wideband_init (psr : Pulsar)
    : result WidebandTimingModel.obj :=
  WidebandTimingModel.__init__
    (fun pname => MkPar pname (Some (Nd0 1%R)))
    (Some (fun pname => MkPar pname (Some (Nd0 (-7)%R))))
    None ex_no_selection ex_no_selection None "wideband_timing_model"
    ex_tm_basis ex_tm_prior ex_no_selection ex_GPCoefficients psr.

(** ** The FFT (time-domain) prior *)

(** The block shared by both [_construct_prior] methods of the FFT
    variants, from [if cutbins == 0:] to the value of [psd]; [prior fs]
    is the call [prior(fs, params=params, components=1)].  A 0-d
    [psd_prior] cannot be indexed; a 2-D one is indexed by rows and cannot
    be concatenated with the 1-D [np.zeros(cutbins)]. *)
Definition fft_psd (prior : list R -> result ndarray) (freqs : list R)
    (cutbins : Z) : result ndarray :=
  if bool_decide (cutbins = 0%Z) then
    f1 ← of_option IndexError (freqs !! 1);
    psd_prior ← prior (f1 :: freqs);
    match psd_prior with
    | Nd0 _ => Raise IndexError
    | Nd1 v =>
        x ← of_option IndexError (v !! 1); Ok (Nd1 ((- x)%R :: drop 2 v))
    | Nd2 m =>
        row ← of_option IndexError (mrows m !! 1);
        Ok (Nd2 (Matrix (mcols m) ((Ropp <$> row) :: drop 2 (mrows m))))
    end
  else
    psd_prior ← prior (drop 1 freqs);
    if bool_decide (cutbins < 0)%Z
    then Raise (ValueError "negative dimensions are not allowed")
    else match psd_prior with
         | Nd0 _ => Raise IndexError
         | Nd1 v =>
             Ok (Nd1 (np_zeros1 (Z.to_nat cutbins)
                      ++ drop (Z.to_nat (cutbins - 1)) v))
         | Nd2 _ =>
             Raise (ValueError "all the input array dimensions must match")
         end.

Module FFTBasisGP.
Section factory.
(** [cutbins] as the factory computes it; [knots_to_freqs] and [psd2cov]
    are the functions of [utils] with [oversample] and [fmax_factor]
    applied, and [call_components pf fs params] is the call
    [pf(fs, params=params, components=1)]. *)
Variable cutbins : Z.
Variable knots_to_freqs : labels_t -> list R.
Variable psd2cov : labels_t -> ndarray -> ndarray.
Variable call_components : prior_fn -> list R -> params_t -> ndarray.
Variable KernelMatrix_set : kernel -> ndarray -> nat * nat -> kernel.

Definition set_phi (self : BasisGP_obj) (phi : kernel) : BasisGP_obj :=
  MkBasisGP (name_ self) (_keys self) (_masks self) (_prior self)
    (_bases self) (_params self) (_coefficients self) (_labels self)
    (_basis self) (Some phi) (_slices self).

(** One round of the loop of [_construct_prior]. *)
Definition prior_step (params : params_t) (acc : result BasisGP_obj)
    (ks : string * (nat * nat)) : result BasisGP_obj :=
  self ← acc;
  t_knots ← getitem (_labels self) ks.1;
  let freqs := knots_to_freqs t_knots in
  psd ← fft_psd (fun fs => pf ← getitem (_prior self) ks.1;
                           Ok (call_components pf fs params))
          freqs cutbins;
  let phislc := psd2cov t_knots psd in
  phi ← of_option AttributeError (_phi self);
  Ok (set_phi self (KernelMatrix_set phi phislc ks.2)).

Definition _construct_prior (self : BasisGP_obj) (params : params_t)
    : result BasisGP_obj :=
  slices ← get_slices self;
  foldl (prior_step params) (Ok self) slices.

Definition get_phi (self : BasisGP_obj) (params : params_t)
    : result (BasisGP_obj * option kernel) :=
  self1 ← _construct_basis self params;
  self2 ← _construct_prior self1 params;
  Ok (self2, _phi self2).
End factory.
End FFTBasisGP.

Module FFTBasisCommonGP.

(** An instance: the attributes of [BasisCommonGP] and the two that
    [_construct_basis] adds. *)
Record obj : Type := Mk {
  common : BasisCommonGP.obj;
  _t_knots : option labels_t;
  _freqs : option (list R)
}.

Section factory.
Variable spectrum : string -> prior_fn.
Variable orf : string -> orf_fn.
Variable name : string.
Variable cutbins : Z.
Variable knots_to_freqs : labels_t -> list R.
Variable psd2cov : labels_t -> ndarray -> ndarray.
Variable call_components : prior_fn -> list R -> params_t -> ndarray.

(** The class attributes inherited from [BasisCommonGP(spectrum, basis,
    orf, ...)]. *)
Definition _prior : prior_fn := BasisCommonGP._prior spectrum name.
Definition _orf : orf_fn := BasisCommonGP._orf orf name.

Definition _construct_prior (self : obj) (params : params_t)
    : result ndarray :=
  freqs ← of_option AttributeError (_freqs self);
  psd ← fft_psd (fun fs => Ok (call_components _prior fs params))
          freqs cutbins;
  t_knots ← of_option AttributeError (_t_knots self);
  Ok (psd2cov t_knots psd).

Definition get_phicross (signal1 signal2 : obj) (params : params_t)
    : result ndarray :=
  phi1 ← _construct_prior signal1 params;
  let orf :=
    of_call _orf (BasisCommonGP._psrpos (common signal1))
      (BasisCommonGP._psrpos (common signal2)) params in
  np_mul phi1 orf.
End factory.
End FFTBasisCommonGP.

(** *** Two pulsars under one common signal

    The basis takes its single label from the pulsar (here the number of
    its observations), the prior returns the labels it is given and the
    overlap reduction function is the constant one. *)

Definition ex_psrA : Pulsar :=
  MkPulsar "A" [1%R; 0%R; 0%R] [0 # 1] [0 # 1] [] [] 0%R [] [] ∅.

Definition ex_psrB : Pulsar :=
  MkPulsar "B" [0%R; 1%R; 0%R] [0 # 1; 1 # 1] [0 # 1; 1 # 1] [] [] 0%R
    [] [] ∅.

Definition ex_common_basis (pname : string) (psr : Pulsar)
    : common_basis_fn :=
  CBasisFn [] (fun _ =>
    (Matrix 1 (replicate (length (psr_toas psr)) [1%R]),
     [INR (length (psr_toas psr))])).

Definition ex_common_prior (name : string) : prior_fn :=
  PriorFn [] (fun lab _ => Nd1 lab).

Definition ex_orf (name : string) : orf_fn :=
  OrfFn [] (fun _ _ _ => Nd0 1%R).

(** [BasisCommonGP(prior, basis, orf, name="gw")(psr)], after its basis
    was built. *)
Definition ex_common (psr : Pulsar) : result BasisCommonGP.obj :=
  self ← BasisCommonGP.__init__ ex_common_prior ex_common_basis ex_orf
           CoefFalse "gw" ex_GPCoefficients psr;
  Ok (BasisCommonGP._construct_basis self ∅).

Definition ex_get_phicross (a b : BasisCommonGP.obj)
    : result (option ndarray) :=
  BasisCommonGP.get_phicross ex_common_prior ex_orf CoefFalse "gw" a b ∅.

(** *** A PSD generator for the FFT prior

    The generator returns [f + 1] at every frequency [f] it is given; the
    transform to a covariance is left out ([psd2cov] returns the PSD it
    receives), so that the PSD is visible in the result. *)

Definition ex_spectrum (name : string) : prior_fn :=
  PriorFn [] (fun fs _ => Nd1 ((fun f => f + 1)%R <$> fs)).

Definition ex_call_components (pf : prior_fn) (fs : list R)
    (params : params_t) : ndarray :=
  pf_call pf fs params.

Definition ex_fft_common : FFTBasisCommonGP.obj :=
  FFTBasisCommonGP.Mk
    (BasisCommonGP.Mk "A_gw" (ex_common_basis "A_gw" ex_psrA) ∅ []
       [1%R; 0%R; 0%R] None (Some [0%R; 1%R; 2%R]))
    (Some [0%R; 1%R; 2%R]) (Some [0%R; 1%R; 2%R]).

Definition ex_fft_construct_prior (cutbins : Z) : result ndarray :=
  FFTBasisCommonGP._construct_prior ex_spectrum "gw" cutbins
    (fun _ psd => psd) ex_call_components ex_fft_common ∅.

(** ** [MarginalizingNmat]: the marginalizing solve *)

(** [np.dot(a, b)] for arrays of at most two dimensions. *)
Definition np_dot_nd (a b : ndarray) : result ndarray :=
  match a, b with
  | Nd0 _, _ | _, Nd0 _ => np_mul a b
  | Nd1 u, Nd1 v => d ← np_dot_vv u v; Ok (Nd0 d)
  | Nd1 u, Nd2 m =>
      if decide (length u = length (mrows m))
      then Ok (Nd1 ((fun j => vdot u (mcol m j)) <$> seq 0 (mcols m)))
      else Raise (ValueError "shapes not aligned")
  | Nd2 m, _ => np_dot m b
  end.

(** The value of an array object: at most two dimensions with its data, or
    three and more with its shape only. *)
Inductive ndvalue : Type :=
  | Low (a : ndarray)
  | High (d0 d1 d2 : nat) (rest : list nat).

Definition nv_ndim (v : ndvalue) : nat :=
  match v with
  | Low a => ndim a
  | High _ _ _ rest => 3 + length rest
  end.

(** An array as a Python object: [arr_id] is its identity, which [is]
    compares. *)
Record array_obj : Type := ArrayObj { arr_id : nat; arr_val : ndvalue }.

Definition py_is (a b : array_obj) : bool :=
  bool_decide (arr_id a = arr_id b).

(** The Cholesky factor that [sksparse.cholmod.cholesky] returns: calling
    it solves against the factored matrix, [logdet()] is the
    log-determinant of that matrix. *)
Record factor : Type := Factor {
  f_call : ndarray -> result ndarray;
  f_logdet : R
}.

(** An object with a [solve] method that is not a [MarginalizingNmat]:
    [s_solve right left] is [solve(right, left_array=left)] and
    [s_solve_logdet right left] is
    [solve(right, left_array=left, logdet=True)]. *)
Record solver : Type := Solver {
  s_solve : array_obj -> option array_obj -> result ndarray;
  s_solve_logdet : array_obj -> array_obj -> result (ndarray * R)
}.

(** What [self.Nmat] can hold: the default [0], an array, or an object
    with [solve]. *)
Inductive noise : Type :=
  | NInt (z : Z)
  | NArray (a : array_obj)
  | NSolver (s : solver).

Module MarginalizingNmat.

Record obj : Type := Mk {
  m_id : nat;
  Mmat : array_obj;
  Nmat : noise;
  Mprior : R
}.

(** The right operand of [+], by the tests [__add__] makes: an instance of
    [MarginalizingNmat], an [np.ndarray], another object with an attribute
    [solve], an [int], or anything else, of which only the truth value of
    [other == 0] is used. *)
Inductive operand : Type :=
  | OpMarginalizing (m : obj)
  | OpNdarray (a : array_obj)
  | OpSolver (s : solver)
  | OpInt (z : Z)
  | OpOther (eq_zero : bool).

(** What [solve] returns: an array, or with [logdet] the pair of an array
    and a log-determinant. *)
Inductive solve_ret : Type :=
  | RetArr (a : ndarray)
  | RetTuple (a : ndarray) (logdet : R).

(** [Mmat.shape[1]] *)
Definition shape1 (v : ndvalue) : result nat :=
  match v with
  | Low (Nd2 m) => Ok (mcols m)
  | High _ d1 _ _ => Ok d1
  | Low _ => Raise IndexError
  end.

(** [MarginalizingNmat(Mmat, Nmat)]; [id] is the identity of the new
    object. *)
Definition __init__ (id : nat) (Mmat : array_obj) (Nmat : noise)
    : result obj :=
  k ← shape1 (arr_val Mmat);
  Ok (Mk id Mmat Nmat (INR k * ln 1e40)%R).

Section methods.
(** [py_add N other] is Python's [N + other] for the noise classes;
    [cholesky mnm] is [cholesky(sps.csc_matrix(mnm))] and
    [np_tensordot a b] is [np.tensordot(a, b, (0, 0))]. *)
Variable py_add : noise -> operand -> result noise.
Variable cholesky : ndarray -> result factor.
Variable np_tensordot : ndarray -> ndarray -> result ndarray.

(** [fresh] is the identity that a newly created instance receives. *)
Definition __add__ (fresh : nat) (self : obj) (other : operand)
    : result obj :=
  match other with
  | OpMarginalizing _ =>
      Raise (ValueError "Cannot combine multiple MarginalizingNmat objects.")
  | OpNdarray _ | OpSolver _ =>
      N ← py_add (Nmat self) other; __init__ fresh (Mmat self) N
  | OpInt z => if bool_decide (z = 0%Z) then Ok self else Raise TypeError
  | OpOther eq_zero => if eq_zero then Ok self else Raise TypeError
  end.

Definition __radd__ (fresh : nat) (self : obj) (other : operand)
    : result obj :=
  __add__ fresh self other.

(** [self.Nmat.solve(right, left_array=left)] *)
Definition Nmat_solve (self : obj) (right : array_obj)
    (left : option array_obj) : result ndarray :=
  match Nmat self with
  | NSolver s => s_solve s right left
  | _ => Raise AttributeError
  end.

Definition Nmat_solve_logdet (self : obj) (right left : array_obj)
    : result (ndarray * R) :=
  match Nmat self with
  | NSolver s => s_solve_logdet s right left
  | _ => Raise AttributeError
  end.

(** The property [cf]. *)
Definition cf (self : obj) : result factor :=
  MNM ← Nmat_solve self (Mmat self) (Some (Mmat self));
  cholesky MNM.

Definition MNr (self : obj) (res : array_obj) : result ndarray :=
  Nmat_solve self res (Some (Mmat self)).

Definition MNF (self : obj) (T : array_obj) : result ndarray :=
  Nmat_solve self T (Some (Mmat self)).

Definition MNMMNF (self : obj) (T : array_obj) : result ndarray :=
  f ← cf self; x ← MNF self T; f_call f x.

(** The four branches of [solve]. *)
Definition solve_vector_self (self : obj) (res : array_obj) (logdet : bool)
    : result solve_ret :=
  '(rNr, logdet_N) ← Nmat_solve_logdet self res res;
  mnr ← MNr self res;
  f ← cf self;
  y ← f_call f mnr;
  d ← np_dot_nd mnr y;
  ret ← np_binop Rminus rNr d;
  if logdet
  then f' ← cf self;
       Ok (RetTuple ret (logdet_N + f_logdet f' + Mprior self)%R)
  else Ok (RetArr ret).

Definition solve_vector_basis (self : obj) (res T : array_obj)
    : result solve_ret :=
  TNr ← Nmat_solve self res (Some T);
  a ← MNMMNF self T;
  b ← MNr self res;
  t ← np_tensordot a b;
  ret ← np_binop Rminus TNr t;
  Ok (RetArr ret).

Definition solve_matrix_self (self : obj) (T : array_obj)
    : result solve_ret :=
  TNT ← Nmat_solve self T (Some T);
  a ← MNF self T;
  b ← MNMMNF self T;
  t ← np_tensordot a b;
  ret ← np_binop Rminus TNT t;
  Ok (RetArr ret).

Definition solve_general (self : obj) (T L : array_obj)
    : result solve_ret :=
  LNT ← Nmat_solve self T (Some L);
  a ← MNF self L;
  b ← MNMMNF self T;
  t ← np_tensordot a b;
  ret ← np_binop Rminus LNT t;
  Ok (RetArr ret).

Definition is_right (left_array : option array_obj) (right : array_obj)
    : bool :=
  match left_array with
  | Some l => py_is l right
  | None => false
  end.

Definition solve (self : obj) (right : array_obj)
    (left_array : option array_obj) (logdet : bool) : result solve_ret :=
  let nd := nv_ndim (arr_val right) in
  if bool_decide (nd = 1) && is_right left_array right
  then solve_vector_self self right logdet
  else
    match left_array with
    | Some l =>
        if bool_decide (nd = 1) && bool_decide (nv_ndim (arr_val l) = 2)
        then solve_vector_basis self right l
        else if bool_decide (nd = 2) && py_is l right
        then solve_matrix_self self right
        else if bool_decide (nd = nv_ndim (arr_val l))
                && bool_decide (nd ≤ 2)
        then solve_general self right l
        else Raise (ValueError
                      "Incorrect arguments given to MarginalizingNmat.solve.")
    | None =>
        Raise (ValueError
                 "Incorrect arguments given to MarginalizingNmat.solve.")
    end.
End methods.
End MarginalizingNmat.

(** *** A marginalizing solve over the identity noise

    The noise operator is the identity on two observations, so that
    [solve(right, left_array=left)] is [left^T right] with log-determinant
    zero; the basis has one column, [[1], [0]]. *)

Definition np_transpose (a : ndarray) : ndarray :=
  match a with
  | Nd2 m =>
      Nd2 (Matrix (length (mrows m)) ((fun j => mcol m j) <$> seq 0 (mcols m)))
  | _ => a
  end.

Definition low (a : array_obj) : result ndarray :=
  match arr_val a with
  | Low v => Ok v
  | High _ _ _ _ => Raise (ValueError "more than two dimensions")
  end.

Definition ex_solve (right : array_obj) (left : option array_obj)
    : result ndarray :=
  r ← low right;
  match left with
  | None => Ok r
  | Some l => lv ← low l; np_dot_nd (np_transpose lv) r
  end.

Definition ex_solver : solver :=
  Solver ex_solve
    (fun right left => v ← ex_solve right (Some left); Ok (v, 0%R)).

(** The factor of a one-by-one matrix [[m]]. *)
Definition ex_cholesky (mnm : ndarray) : result factor :=
  match mnm with
  | Nd2 (Matrix 1 [[m]]) =>
      Ok (Factor (fun x => np_binop Rdiv x (Nd0 m)) (ln m))
  | _ => Raise (ValueError "not a one-by-one matrix")
  end.

Definition ex_tensordot (a b : ndarray) : result ndarray :=
  np_dot_nd (np_transpose a) b.

(** [0 + other] is [other]. *)
Definition ex_py_add (N : noise) (other : MarginalizingNmat.operand)
    : result noise :=
  match N, other with
  | NInt 0, MarginalizingNmat.OpSolver s => Ok (NSolver s)
  | NInt 0, MarginalizingNmat.OpNdarray a => Ok (NArray a)
  | _, _ => Raise TypeError
  end.

Definition ex_Mmat : array_obj :=
  ArrayObj 1 (Low (Nd2 (Matrix 1 [[1%R]; [0%R]]))).
Definition ex_res : array_obj := ArrayObj 2 (Low (Nd1 [3%R; 4%R])).
Definition ex_res' : array_obj := ArrayObj 3 (Low (Nd1 [1%R; 2%R])).

Definition ex_marg : result MarginalizingNmat.obj :=
  m ← MarginalizingNmat.__init__ 10 ex_Mmat (NInt 0);
  MarginalizingNmat.__add__ ex_py_add 11 m
    (MarginalizingNmat.OpSolver ex_solver).

Definition ex_marg_solve (m : MarginalizingNmat.obj) (right : array_obj)
    (left_array : option array_obj) (logdet : bool)
    : result MarginalizingNmat.solve_ret :=
  MarginalizingNmat.solve ex_cholesky ex_tensordot m right left_array logdet.

(** ** Notions used to state further properties *)

(** [key] is a fitted DMX parameter of [psr] with nominal value [dmx], it
    stands at position [i] of the fit parameters (the first position that
    holds it), and [which] marks the observations whose day lies in its
    interval. *)
Definition dmx_entry (psr : Pulsar) (key : string) (dmx : R) (i : nat)
    (which : mask_t) : Prop :=
  ∃ r1 r2,
    psr_dmx psr !! key = Some (true, dmx, r1, r2)
    ∧ psr_fitpars psr !! i = Some key
    ∧ (∀ j, j < i → psr_fitpars psr !! j ≠ Some key)
    ∧ which = in_interval r1 r2 <$> psr_stoas psr.

(** The number of masks of [whichs] that select observation [i]. *)
Definition coverage (whichs : list mask_t) (i : nat) : nat :=
  length (filter (fun w => w !! i = Some true) whichs).

(** The example pulsar with disjoint DMX intervals [[0, 1)] and [[2, 6)],
    one per observation, and the same pulsar with [DM] fitted. *)
Definition ex_wb_psr_ok : Pulsar :=
  MkPulsar "J1" [] [43200 # 1; 432000 # 1] [43200 # 1; 432000 # 1]
    [1400%R; 1400%R] ["DMX_0001"; "DMX_0002"] 10%R [10%R; 10%R]
    [1%R; 1%R]
    (<["DMX_0002" := (true, 0%R, 2 # 1, 6 # 1)]>
       (<["DMX_0001" := (true, 0%R, 0 # 1, 1 # 1)]> ∅)).

Definition ex_wb_psr_DM : Pulsar :=
  MkPulsar "J1" [] [43200 # 1; 432000 # 1] [43200 # 1; 432000 # 1]
    [1400%R; 1400%R] ["DM"; "DMX_0001"; "DMX_0002"] 10%R [10%R; 10%R]
    [1%R; 1%R] (psr_dmx ex_wb_psr_ok).

(** The state every [MarginalizingNmat] is in: its basis has a second axis
    and [Mprior] is the length of that axis times [log(1e40)]. *)
Definition Mprior_inv (self : MarginalizingNmat.obj) : Prop :=
  ∃ k, MarginalizingNmat.shape1 (arr_val (MarginalizingNmat.Mmat self)) = Ok k
       ∧ MarginalizingNmat.Mprior self = (INR k * ln 1e40)%R.

(** The first statement of the factories [FFTBasisGP] and
    [FFTBasisCommonGP]: the number of knots, from [nknots] when it is
    given and from [components] otherwise. *)
Definition fft_nknots (nknots : option Z) (components : Z) : result Z :=
  match nknots with
  | None => Ok (2 * components + 1)%Z
  | Some n =>
      if bool_decide (n mod 2 = 0)%Z
      then Raise (ValueError "Knots needs to be an odd number")
      else Ok n
  end.

(** * Properties *)

(** ** The order on keys *)

Lemma string_lt_compare a b : string_lt a b ↔ String.compare a b = Lt.
Proof.
  unfold string_lt, String.ltb. destruct (String.compare a b); simpl; split;
    intros H; try done.
Qed.

Lemma string_le_compare a b : string_le a b ↔ String.compare a b ≠ Gt.
Proof.
  unfold string_le, String.leb. destruct (String.compare a b); simpl; split;
    intros H; try done.
Qed.

Lemma string_lt_OT a b : string_lt a b ↔ String_as_OT.lt a b.
Proof. rewrite string_lt_compare. apply String_as_OT.cmp_lt. Qed.

#[global] Instance string_lt_trans : Transitive string_lt.
Proof.
  intros a b c. rewrite !string_lt_OT. apply String_as_OT.lt_trans.
Qed.

#[global] Instance string_lt_irrefl : Irreflexive string_lt.
Proof.
  intros a H. apply string_lt_OT in H.
  by apply String_as_OT.lt_not_eq in H.
Qed.

Lemma string_le_lt_eq a b : string_le a b ↔ string_lt a b ∨ a = b.
Proof.
  rewrite string_le_compare, string_lt_compare. split.
  - destruct (String.compare a b) eqn:E; intros H; try done; auto.
    right. by apply String.compare_eq_iff.
  - intros [-> | ->]; [done |].
    intros H. pose proof (String.compare_antisym b b) as Ha.
    rewrite H in Ha. done.
Qed.

#[global] Instance string_le_total : Total string_le.
Proof.
  intros a b. unfold string_le.
  destruct (String.leb_total a b) as [-> | ->]; simpl; auto.
Qed.

#[global] Instance string_le_trans : Transitive string_le.
Proof.
  intros a b c. rewrite !string_le_lt_eq.
  intros [H1 | ->] [H2 | ->]; auto. left. by etrans.
Qed.

Lemma sorted_strongly (l : list string) :
  NoDup l → StronglySorted string_lt (sorted l).
Proof.
  intros Hnd. unfold sorted.
  assert (Hs : StronglySorted string_le (merge_sort string_le l))
    by apply (StronglySorted_merge_sort _).
  assert (Hn : NoDup (merge_sort string_le l))
    by (by rewrite merge_sort_Permutation).
  induction Hs as [| x l' Hs IH Hall]; [constructor |].
  apply NoDup_cons in Hn as [Hx Hn]. constructor; [by apply IH |].
  rewrite Forall_forall in Hall |- *. intros y Hy.
  destruct (proj1 (string_le_lt_eq x y) (Hall y Hy)) as [? | ->]; done.
Qed.

(** ** Insertion-ordered dictionaries *)

Lemma od_set_fresh {V} (d : odict V) k v :
  k ∉ od_keys d → od_set d k v = d ++ [(k, v)].
Proof.
  unfold od_keys. induction d as [| [k' v'] d IH]; simpl; [done |].
  intros Hk. apply not_elem_of_cons in Hk as [Hne Hk].
  rewrite decide_False by done. by rewrite IH.
Qed.

Lemma od_get_app {V} (d1 d2 : odict V) k :
  od_get (d1 ++ d2) k =
    match od_get d1 k with
    | Some v => Some v
    | None => od_get d2 k
    end.
Proof.
  induction d1 as [| [k' v'] d1 IH]; simpl; [done |]. by case_decide.
Qed.

Lemma od_get_None {V} (d : odict V) k : od_get d k = None ↔ k ∉ od_keys d.
Proof.
  unfold od_keys. induction d as [| [k' v'] d IH]; simpl.
  - split; [intros _; apply not_elem_of_nil | done].
  - rewrite not_elem_of_cons. destruct (decide (k' = k)) as [-> | Hne].
    + split; [done | by intros [? _]].
    + rewrite IH. split; [by auto | by intros [_ ?]].
Qed.

Lemma od_get_Some_elem {V} (d : odict V) k v :
  od_get d k = Some v → (k, v) ∈ d.
Proof.
  induction d as [| [k' v'] d IH]; simpl; [done |].
  destruct (decide (k' = k)) as [-> | Hne].
  - intros [= ->]. left.
  - intros Hget. right. auto.
Qed.

Lemma od_get_elem {V} (d : odict V) k v :
  NoDup (od_keys d) → (k, v) ∈ d → od_get d k = Some v.
Proof.
  unfold od_keys. induction d as [| [k' v'] d IH]; simpl.
  - intros _ H. by apply elem_of_nil in H.
  - intros [Hk Hnd]%NoDup_cons [[= -> ->] | Hin]%elem_of_cons.
    + by rewrite decide_True.
    + rewrite decide_False; [by apply IH |].
      intros ->. apply Hk. apply list_elem_of_fmap. by exists (k, v).
Qed.

(** ** Tilings *)

Lemma tiles_le a total l : tiles a total l → a ≤ total.
Proof.
  revert a. induction l as [| [s e] l IH]; simpl; intros a.
  - lia.
  - intros (-> & Hle & Ht). apply IH in Ht. lia.
Qed.

Lemma tiles_app a b total l1 l2 :
  tiles a b l1 → tiles b total l2 → tiles a total (l1 ++ l2).
Proof.
  revert a. induction l1 as [| [s e] l1 IH]; simpl; intros a.
  - by intros ->.
  - intros (-> & Hle & Ht) H2. eauto.
Qed.

(** Every column of a tiled range lies in the slice of exactly one key. *)
Lemma tiles_cover (d : odict (nat * nat)) a total j :
  NoDup (od_keys d) → tiles a total (od_values d) → a ≤ j < total →
  ∃ key, (∃ s e, od_get d key = Some (s, e) ∧ s ≤ j < e)
       ∧ ∀ key' s e, od_get d key' = Some (s, e) → s ≤ j < e → key' = key.
Proof.
  unfold od_keys, od_values. revert a.
  induction d as [| [k [s e]] d IH]; simpl; intros a Hnd Ht Hj.
  - lia.
  - apply NoDup_cons in Hnd as [Hk Hnd]. destruct Ht as (-> & Hle & Ht).
    destruct (decide (j < e)) as [Hlt | Hge].
    + exists k. split.
      * exists a, e. rewrite decide_True by done. split; [done | lia].
      * intros k' s' e'. case_decide; [done |]. intros Hget Hin.
        apply od_get_Some_elem in Hget.
        assert (Hmem : (s', e') ∈ d.*2)
          by (apply list_elem_of_fmap; by exists (k', (s', e'))).
        clear -Hmem Ht Hin Hlt. exfalso. revert e Ht Hlt.
        induction d as [| [k2 [s2 e2]] d IH]; simpl in *; intros e Ht Hlt.
        { by apply elem_of_nil in Hmem. }
        destruct Ht as (-> & Hle & Ht).
        apply elem_of_cons in Hmem as [[= -> ->] | Hmem]; [lia |].
        apply (IH Hmem e2 Ht). lia.
    + destruct (IH e Hnd Ht) as (key & (s' & e' & Hget & Hin) & Huniq);
        [lia |].
      exists key. split.
      * exists s', e'. split; [| done].
        rewrite decide_False; [done |]. intros ->.
        apply Hk. apply od_get_Some_elem in Hget.
        apply list_elem_of_fmap. by exists (key, (s', e')).
      * intros k' s2 e2. case_decide; [intros [= -> ->]; lia |]. apply Huniq.
Qed.

(** ** Basis construction *)

Lemma np_set_block_mcols A mask a F A' :
  np_set_block A mask a F = Ok A' → mcols A' = mcols A.
Proof.
  unfold np_set_block. repeat case_match; intros [= <-]; done.
Qed.

Lemma eval_bases_spec bases params kms basis labels basis' labels' :
  NoDup kms.*1 →
  (∀ k, k ∈ kms.*1 → k ∉ od_keys basis) →
  (∀ k, k ∈ kms.*1 → k ∉ od_keys labels) →
  eval_bases bases params kms basis labels = Ok (basis', labels') →
  ∃ new newl,
    basis' = basis ++ new ∧ labels' = labels ++ newl
    ∧ od_keys newl = kms.*1
    ∧ Forall2 (fun km kF => kF.1 = km.1
                 ∧ ∃ bf, od_get bases km.1 = Some bf
                       ∧ kF.2 = (bf_call bf params km.2).1) kms new.
Proof.
  revert basis labels.
  induction kms as [| [key mask] kms IH]; simpl; intros basis labels Hnd Hb Hl.
  - intros [= <- <-]. exists [], []. by rewrite !app_nil_r.
  - apply NoDup_cons in Hnd as [Hkey Hnd].
    destruct (od_get bases key) as [bf |] eqn:Hbf; simpl; [| done].
    destruct (bf_call bf params mask) as [F lab] eqn:Hcall.
    rewrite (od_set_fresh basis), (od_set_fresh labels)
      by (first [apply Hb | apply Hl]; left).
    intros Hev. apply IH in Hev as (new & newl & -> & -> & Hkl & Hall);
      [| done | |].
    + exists ((key, F) :: new), ((key, lab) :: newl).
      rewrite <- !app_assoc. simpl. split_and!; [done | done | |].
      * unfold od_keys in *. simpl. by rewrite Hkl.
      * constructor; [| done]. simpl. split; [done |].
        exists bf. by rewrite Hcall.
    + intros k Hk. unfold od_keys. rewrite fmap_app. simpl.
      rewrite elem_of_app, list_elem_of_singleton.
      intros [Hin | ->]; [| done]. by apply (Hb k); [right |].
    + intros k Hk. unfold od_keys. rewrite fmap_app. simpl.
      rewrite elem_of_app, list_elem_of_singleton.
      intros [Hin | ->]; [| done]. by apply (Hl k); [right |].
Qed.

Lemma place_blocks_spec bases params pre kms rest B slices nctot B' slices' n' :
  NoDup (od_keys (pre ++ rest)) →
  Forall2 (fun km kF => kF.1 = km.1
             ∧ ∃ bf, od_get bases km.1 = Some bf
                   ∧ kF.2 = (bf_call bf params km.2).1) kms rest →
  (∀ k, k ∈ kms.*1 → k ∉ od_keys slices) →
  place_blocks (pre ++ rest) kms B slices nctot = Ok (B', slices', n') →
  n' = nctot + sum_list (mcols <$> od_values rest)
  ∧ mcols B' = mcols B
  ∧ ∃ new, slices' = slices ++ new
         ∧ tiles nctot n' (od_values new)
         ∧ Forall2 (slice_of_block bases params) kms new.
Proof.
  revert pre kms B slices nctot.
  induction rest as [| [k F] rest IH]; intros pre kms B slices nctot Hnd Hall Hs.
  - apply Forall2_nil_inv_r in Hall as ->. simpl. intros [= <- <- <-].
    split_and!; [simpl; lia | done |]. exists []. by rewrite app_nil_r.
  - apply Forall2_cons_inv_r in Hall
      as ([key mask] & kms' & (Hk & bf & Hbf & HF) & Hall & ->).
    simpl in Hk, Hbf, HF. subst k F. simpl.
    assert (Hget : od_get (pre ++ (key, (bf_call bf params mask).1) :: rest)
                     key = Some (bf_call bf params mask).1).
    { apply od_get_elem; [done |]. apply elem_of_app. right. left. }
    rewrite Hget. simpl.
    destruct (np_set_block B mask nctot _) as [B1 |] eqn:HB; simpl; [| done].
    rewrite (od_set_fresh slices) by (apply Hs; left).
    replace (pre ++ (key, (bf_call bf params mask).1) :: rest)
      with ((pre ++ [(key, (bf_call bf params mask).1)]) ++ rest)
      by (by rewrite <- app_assoc).
    intros Hpl. apply IH in Hpl as (-> & HmB & new & -> & Ht & Hall').
    + split_and!;
        [change (list_fmap matrix nat mcols (od_values rest)) with (mcols <$> od_values rest); lia
        | by rewrite HmB, (np_set_block_mcols _ _ _ _ _ HB) |].
      exists ((key, (nctot, mcols (bf_call bf params mask).1 + nctot)) :: new).
      rewrite <- app_assoc. split; [done |]. split.
      * unfold od_values. simpl. split_and!; [done | lia |].
        replace (mcols (bf_call bf params mask).1 + nctot)
          with (nctot + mcols (bf_call bf params mask).1) by lia. done.
      * constructor; [| done]. split; [done |]. exists bf. simpl.
        split; [done | lia].
    + by rewrite <- app_assoc.
    + done.
    + intros k Hk. unfold od_keys. rewrite fmap_app. simpl.
      rewrite elem_of_app, list_elem_of_singleton.
      intros [Hin | ->].
      * by apply (Hs k); [right |].
      * unfold od_keys in Hnd. rewrite fmap_app in Hnd. simpl in Hnd.
        apply NoDup_app in Hnd as (_ & _ & Hnd).
        apply NoDup_cons in Hnd as [Hnk _]. apply Hnk.
        assert (Hkeys : rest.*1 = kms'.*1).
        { clear -Hall.
          induction Hall as [| x y l l' [Heq _] _ IHl]; [done |].
          rewrite !fmap_cons. by rewrite Heq, IHl. }
        change (key ∈ rest.*1). by rewrite Hkeys.
Qed.

Lemma strongly_sorted_NoDup (l : list string) :
  StronglySorted string_lt l → NoDup l.
Proof.
  induction 1 as [| x l Hs IH Hall]; constructor; [| done].
  intros Hin. rewrite Forall_forall in Hall.
  by eapply string_lt_irrefl, Hall.
Qed.

Lemma Forall2_fst_eq {A B} (P : string * A → string * B → Prop) l1 l2 :
  Forall2 (fun x y => y.1 = x.1 ∧ P x y) l1 l2 → l2.*1 = l1.*1.
Proof.
  induction 1 as [| x y l l' [Heq _] _ IHl]; [done |].
  rewrite !fmap_cons. by rewrite Heq, IHl.
Qed.

(** The shape of what [_construct_basis] leaves in the object. *)
Lemma construct_basis_spec self params self' :
  BasisGP_inv self →
  _construct_basis self params = Ok self' →
  _keys self' = _keys self ∧ _masks self' = _masks self
  ∧ _bases self' = _bases self ∧ _coefficients self' = _coefficients self
  ∧ _prior self' = _prior self
  ∧ od_keys (_labels self') = _keys self
  ∧ ∃ B, _basis self' = Some B
       ∧ od_keys (_slices self') = _keys self
       ∧ Forall2 (slice_of_block (_bases self) params)
           (zip (_keys self) (_masks self)) (_slices self')
       ∧ tiles 0 (mcols B) (od_values (_slices self')).
Proof.
  intros [Hsorted Hlen]. unfold _construct_basis.
  pose proof (strongly_sorted_NoDup _ Hsorted) as Hnd.
  assert (Hzk : (zip (_keys self) (_masks self)).*1 = _keys self)
    by (apply fst_zip; lia).
  destruct (eval_bases _ _ _ _ _) as [[basis labels] |] eqn:Hev; [| done].
  apply eval_bases_spec in Hev as (new & newl & -> & -> & Hkl & Hall);
    [| by rewrite Hzk | intros; apply not_elem_of_nil
     | intros; apply not_elem_of_nil].
  simpl. destruct (_masks self !! 0) as [mask0 |]; [| done]. simpl.
  destruct (place_blocks _ _ _ _ _) as [[[B slices] n] |] eqn:Hpl; [| done].
  simpl. intros [= <-]. simpl.
  pose proof (Forall2_fst_eq _ _ _ Hall) as Hnk.
  apply (place_blocks_spec (_bases self) params [] _ new) in Hpl
    as (-> & HmB & sl & -> & Ht & Hsl);
    [| simpl; unfold od_keys; by rewrite Hnk, Hzk | done
     | intros; apply not_elem_of_nil].
  split_and!; try done; [by rewrite Hkl |].
  exists B. simpl in *. split_and!; [done | | done |].
  - unfold slice_of_block in Hsl. unfold od_keys.
    by rewrite (Forall2_fst_eq _ _ _ Hsl).
  - by rewrite HmB.
Qed.

Lemma construct_basis_inv self params self' :
  BasisGP_inv self → _construct_basis self params = Ok self' →
  BasisGP_inv self'.
Proof.
  intros Hinv Hc. pose proof (construct_basis_spec _ _ _ Hinv Hc)
    as (Hk & Hm & _). destruct Hinv as [Hs Hl].
  split; by rewrite ?Hk, ?Hm.
Qed.

(** C1. After [_construct_basis], the recorded slices are, in the sorted
    order of the selection keys, contiguous half-open column ranges whose
    widths are the column counts of the keys' basis blocks; they start at
    column 0, end at the column count of the combined basis matrix, and
    every column of that matrix lies in the slice of exactly one key. *)
Theorem construct_basis_slices_partition self params self' :
  BasisGP_inv self →
  _construct_basis self params = Ok self' →
  ∃ B, _basis self' = Some B
     ∧ od_keys (_slices self') = _keys self
     ∧ StronglySorted string_lt (od_keys (_slices self'))
     ∧ Forall2 (slice_of_block (_bases self) params)
         (zip (_keys self) (_masks self)) (_slices self')
     ∧ tiles 0 (mcols B) (od_values (_slices self'))
     ∧ ∀ j, j < mcols B →
         ∃ key, (∃ s e, od_get (_slices self') key = Some (s, e) ∧ s ≤ j < e)
              ∧ ∀ key' s e, od_get (_slices self') key' = Some (s, e) →
                            s ≤ j < e → key' = key.
Proof.
  intros Hinv Hc.
  destruct (construct_basis_spec _ _ _ Hinv Hc)
    as (_ & _ & _ & _ & _ & _ & B & HB & Hkeys & Hall & Ht).
  destruct Hinv as [Hsorted _].
  exists B. split_and!; [done | done | by rewrite Hkeys | done | done |].
  intros j Hj. apply (tiles_cover _ 0 (mcols B));
    [rewrite Hkeys; by apply strongly_sorted_NoDup | done | lia].
Qed.

(** ** The coefficient vector of [get_delay] *)

Lemma np_broadcast1_length n v l : np_broadcast1 n v = Ok l → length l = n.
Proof.
  assert (Hvec : ∀ l0 : list R,
    (if bool_decide (length l0 = n) then Ok l0
     else match l0 with
          | [x] => Ok (replicate n x)
          | _ => Raise (ValueError "could not broadcast input array")
          end) = Ok l → length l = n).
  { intros l0. case_bool_decide as Hl; [by intros [= <-] |].
    destruct l0 as [| x [| y l0]]; try done.
    intros [= <-]. apply length_replicate. }
  destruct v as [x | v | m]; simpl.
  - intros [= <-]. apply length_replicate.
  - apply Hvec.
  - destruct (mrows m) as [| r [| r' rs]]; try done. apply Hvec.
Qed.

Lemma np_set_slice_spec c s e v new :
  s ≤ e → e ≤ length c → np_broadcast1 (e - s) v = Ok new →
  np_set_slice c (s, e) v = Ok (take s c ++ new ++ drop e c).
Proof.
  intros Hse He Hb. unfold np_set_slice. simpl.
  rewrite !Nat.min_l by lia. rewrite Hb. simpl.
  by replace (s + (e - s)) with e by lia.
Qed.

Lemma assemble_c_raise coefs params sl e :
  foldl (fun acc '(key, slc) =>
           c ← acc; p ← getitem coefs key; v ← current_value params p;
           np_set_slice c slc v)
        (Raise e) sl = Raise e.
Proof. induction sl as [| [k slc] sl IH]; simpl; [done | apply IH]. Qed.

Lemma assemble_c_cons coefs params k slc sl c0 :
  assemble_c coefs params ((k, slc) :: sl) c0 =
    match od_get coefs k with
    | Some p =>
        match current_value params p with
        | Ok v =>
            match np_set_slice c0 slc v with
            | Ok c1 => assemble_c coefs params sl c1
            | Raise e => Raise e
            end
        | Raise e => Raise e
        end
    | None => Raise KeyError
    end.
Proof.
  unfold assemble_c. simpl. unfold getitem.
  destruct (od_get coefs k) as [p |]; simpl; [| apply assemble_c_raise].
  destruct (current_value params p); simpl; [| apply assemble_c_raise].
  destruct (np_set_slice c0 slc _); simpl; [done | apply assemble_c_raise].
Qed.

Lemma assemble_c_spec coefs params sl c0 a total :
  tiles a total (od_values sl) → total ≤ length c0 →
  Forall (fun ks => ∃ p v, od_get coefs ks.1 = Some p
            ∧ current_value params p = Ok v
            ∧ is_ok (np_broadcast1 (ks.2.2 - ks.2.1) v))
         sl →
  ∃ c, assemble_c coefs params sl c0 = Ok c
     ∧ length c = length c0
     ∧ take a c = take a c0
     ∧ Forall (fun ks => ∃ p v, od_get coefs ks.1 = Some p
                 ∧ current_value params p = Ok v
                 ∧ np_broadcast1 (ks.2.2 - ks.2.1) v
                   = Ok (np_slice c ks.2.1 ks.2.2)) sl.
Proof.
  unfold od_values. revert c0 a.
  induction sl as [| [k [s e]] sl IH]; intros c0 a Ht Hlen Hall.
  - exists c0. by split_and!.
  - destruct Ht as (-> & Hse & Ht).
    apply Forall_cons in Hall as [(p & v & Hp & Hv & Hok) Hall].
    simpl in Hp, Hok.
    rewrite assemble_c_cons, Hp, Hv.
    destruct (np_broadcast1 (e - a) v) as [new |] eqn:Hnew; [| done].
    pose proof (tiles_le _ _ _ Ht) as Hetot.
    pose proof (np_broadcast1_length _ _ _ Hnew) as Hnl.
    rewrite (np_set_slice_spec c0 a e _ new) by (done || lia).
    set (c1 := take a c0 ++ new ++ drop e c0).
    assert (Hc1 : length c1 = length c0).
    { unfold c1. rewrite !length_app, length_take, length_drop. lia. }
    destruct (IH c1 e Ht) as (c & Hc & Hlc & Htake & Hrest);
      [lia | done |].
    exists c. split_and!; [done | lia | |].
    + assert (Hta : take a c = take a (take e c))
        by (rewrite take_take; f_equal; lia).
      rewrite Hta, Htake, take_take. replace (a `min` e) with a by lia.
      unfold c1. rewrite take_app_le by (rewrite length_take; lia).
      rewrite take_take. f_equal. lia.
    + constructor; [| done]. exists p, v. split_and!; [done | done |]. simpl.
      rewrite Hnew. f_equal. unfold np_slice.
      assert (Hseg : take (e - a) (drop a c) = take (e - a) (drop a (take e c))).
      { rewrite (take_drop_commute c (e - a) a).
        rewrite (take_drop_commute (take e c) (e - a) a).
        replace (a + (e - a)) with e by lia.
        by rewrite take_take, Nat.min_id. }
      rewrite Hseg, Htake. unfold c1.
      rewrite take_app_ge by (rewrite length_take; lia).
      rewrite length_take, Nat.min_l by lia.
      rewrite drop_app_length' by (rewrite length_take; lia).
      rewrite take_app_le by lia.
      rewrite take_take, Nat.min_id. by rewrite take_ge by lia.
Qed.

(** A coefficient vector that was assembled has read a value for the
    coefficient parameter of every slice. *)
Lemma assemble_c_reads coefs params sl c0 c :
  assemble_c coefs params sl c0 = Ok c →
  Forall (fun ks => ∃ p v, od_get coefs ks.1 = Some p
                         ∧ current_value params p = Ok v) sl.
Proof.
  revert c0. induction sl as [| [k slc] sl IH]; intros c0; [by constructor |].
  rewrite assemble_c_cons.
  destruct (od_get coefs k) as [p |] eqn:Hp; [| done].
  destruct (current_value params p) as [v |] eqn:Hv; [| done].
  destruct (np_set_slice c0 slc v) as [c1 |]; [| done].
  intros Hrest. constructor; [by exists p, v | by eapply IH].
Qed.

(** In coefficient mode [get_delay(params)] returns [np.dot(basis, c)],
    where the sub-vector of [c] at the slice of every key is the value read
    for that key's coefficient parameter, as numpy's slice assignment
    writes it; a 1-D value of the slice's width is written as it is.  The
    call succeeds whenever the basis can be built, every value can be read
    and the values fit their slices. *)
Lemma get_delay_values_spec self params self' :
  BasisGP_inv self → coefficients_inv self →
  _construct_basis self params = Ok self' →
  (∀ key p s e,
     od_get (_coefficients self) key = Some p →
     od_get (_slices self') key = Some (s, e) →
     ∃ v, current_value params p = Ok v
        ∧ is_ok (np_broadcast1 (e - s) v)) →
  ∃ B c d,
    _basis self' = Some B ∧ length c = mcols B ∧ np_dot_mv B c = Ok d
    ∧ get_delay true self params = Ok (self', PyArr (Nd1 d))
    ∧ ∀ key s e, od_get (_slices self') key = Some (s, e) →
        ∃ p v, od_get (_coefficients self) key = Some p
             ∧ current_value params p = Ok v
             ∧ np_broadcast1 (e - s) v = Ok (np_slice c s e)
             ∧ ∀ l, v = Nd1 l → length l = e - s → np_slice c s e = l.
Proof.
  intros Hinv Hcoef Hc Hfit.
  destruct (construct_basis_spec _ _ _ Hinv Hc)
    as (Hk & _ & _ & Hco & _ & _ & B & HB & Hkeys & _ & Ht).
  destruct (assemble_c_spec (_coefficients self) params (_slices self')
              (np_zeros1 (mcols B)) 0 (mcols B)) as (c & Hc' & Hlen & _ & Hall).
  { done. }
  { unfold np_zeros1. by rewrite length_replicate. }
  { apply Forall_forall. intros [k [s e]] Hin. simpl.
    assert (Hkin : k ∈ _keys self).
    { rewrite <- Hkeys. unfold od_keys. apply list_elem_of_fmap.
      by exists (k, (s, e)). }
    destruct (Hcoef k Hkin) as [p Hp].
    destruct (Hfit k p s e Hp) as (v & Hv & Hok).
    { apply od_get_elem; [| done].
      rewrite Hkeys. apply strongly_sorted_NoDup, Hinv. }
    by exists p, v. }
  unfold np_zeros1 in Hlen. rewrite length_replicate in Hlen.
  exists B, c, ((fun row => vdot row c) <$> mrows B).
  assert (Hdot : np_dot_mv B c = Ok ((fun row => vdot row c) <$> mrows B)).
  { unfold np_dot_mv. by rewrite decide_True. }
  split_and!; [done | done | done | |].
  - unfold get_delay. rewrite Hc. simpl. rewrite HB. simpl.
    rewrite Hco, Hc'. simpl. by rewrite Hdot.
  - intros key s e Hget. apply od_get_Some_elem in Hget.
    rewrite Forall_forall in Hall.
    destruct (Hall _ Hget) as (p & v & Hp & Hv & Hbc). simpl in Hp, Hbc.
    exists p, v. split_and!; [done | done | done |].
    intros l -> Hvl. simpl in Hbc.
    rewrite bool_decide_eq_true_2 in Hbc by done. by injection Hbc.
Qed.

(** ** What [__init__] establishes *)

Lemma od_get_set {V} (d : odict V) k v k' :
  od_get (od_set d k v) k' = if decide (k = k') then Some v else od_get d k'.
Proof.
  induction d as [| [k0 v0] d IH]; simpl.
  - done.
  - destruct (decide (k0 = k)) as [-> | Hne]; simpl.
    + by destruct (decide (k = k')).
    + destruct (decide (k0 = k')) as [-> | Hne'].
      * by rewrite decide_False by done.
      * apply IH.
Qed.

Section init.
Variable priorFunction : string -> Pulsar -> prior_fn.
Variable basisFunction : string -> Pulsar -> basis_fn.
Variable selection : selection_t.
Variable name : string.
Variable GPCoefficients : nat -> string -> parameter.

Lemma make_coefficients_spec psr keys s0 s' :
  foldl (fun acc key =>
           self ← acc;
           let pname := join_names [psr_name psr; name; key] in
           '(start, stop) ← of_option KeyError (od_get (_slices self) key);
           let size := stop - start in
           let cpar := GPCoefficients size (pname +:+ "_coefficients") in
           Ok (MkBasisGP (name_ self) (_keys self) (_masks self)
                 (_prior self) (_bases self)
                 (<[par_name cpar := cpar]> (_params self))
                 (od_set (_coefficients self) key cpar)
                 (_labels self) (_basis self) (_phi self) (_slices self)))
        (Ok s0) keys = Ok s' →
  _keys s' = _keys s0 ∧ _masks s' = _masks s0
  ∧ ∀ k, k ∈ keys ∨ is_Some (od_get (_coefficients s0) k) →
         is_Some (od_get (_coefficients s') k).
Proof.
  revert s0. induction keys as [| key keys IH]; simpl; intros s0.
  - intros [= <-]. split_and!; [done | done |].
    intros k [Hk | Hk]; [by apply elem_of_nil in Hk | done].
  - destruct (od_get (_slices s0) key) as [[start stop] |]; simpl.
    + intros Hf. apply IH in Hf as (Hk & Hm & Hc). simpl in *.
      split_and!; [done | done |]. intros k Hin. apply Hc.
      rewrite od_get_set. destruct (decide (key = k)) as [-> | Hne].
      * by right.
      * destruct Hin as [[-> | Hin]%elem_of_cons | Hin]; [done | by left |].
        by right.
    + intros Hf. exfalso. revert Hf. clear. generalize KeyError.
      induction keys as [| k keys IH]; simpl; [done | apply IH].
Qed.

(** Both variants of the class leave the object with its keys in strictly
    increasing order and one mask per key; the coefficient variant also
    gives every key a coefficient parameter. *)
Lemma BasisGP_init_inv coefficients psr self :
  BasisGP_init priorFunction basisFunction coefficients selection name
    GPCoefficients psr = Ok self →
  BasisGP_inv self ∧ (coefficients = true → coefficients_inv self).
Proof.
  unfold BasisGP_init.
  set (keys := sorted (map_to_list (selection psr)).*1).
  set (mks := (fun key => default [] (selection psr !! key)) <$> keys).
  destruct (bind_functions _ _ _ _ _) as [[prior bases] pars].
  set (s0 := MkBasisGP _ keys mks prior bases pars [] [] None None []).
  assert (Hinv0 : BasisGP_inv s0).
  { split; simpl.
    - apply sorted_strongly, NoDup_fst_map_to_list.
    - unfold mks. by rewrite length_fmap. }
  destruct coefficients.
  - destruct (_construct_basis s0 ∅) as [s1 |] eqn:Hc; simpl; [| done].
    pose proof (construct_basis_inv _ _ _ Hinv0 Hc) as Hinv1.
    unfold make_coefficients. intros Hm.
    apply make_coefficients_spec in Hm as (Hk & Hmk & Hco).
    split.
    + destruct Hinv1 as [Hs Hl]. split; by rewrite ?Hk, ?Hmk.
    + intros _ k Hin. apply Hco. left. by rewrite <- Hk.
  - intros [= <-]. split; [done | done].
Qed.
(** The coefficient parameters that [__init__] creates are instances of
    [GPCoefficients]: when these have no attribute [value], no coefficient
    parameter of the signal has one. *)
Lemma make_coefficients_no_value psr keys s0 s' :
  (∀ size pname, par_value (GPCoefficients size pname) = None) →
  foldl (fun acc key =>
           self ← acc;
           let pname := join_names [psr_name psr; name; key] in
           '(start, stop) ← of_option KeyError (od_get (_slices self) key);
           let size := stop - start in
           let cpar := GPCoefficients size (pname +:+ "_coefficients") in
           Ok (MkBasisGP (name_ self) (_keys self) (_masks self)
                 (_prior self) (_bases self)
                 (<[par_name cpar := cpar]> (_params self))
                 (od_set (_coefficients self) key cpar)
                 (_labels self) (_basis self) (_phi self) (_slices self)))
        (Ok s0) keys = Ok s' →
  (∀ k p, od_get (_coefficients s0) k = Some p → par_value p = None) →
  ∀ k p, od_get (_coefficients s') k = Some p → par_value p = None.
Proof.
  intros HGP. revert s0. induction keys as [| key keys IH]; simpl; intros s0.
  - by intros [= <-].
  - destruct (od_get (_slices s0) key) as [[start stop] |]; simpl.
    + intros Hf H0. apply (IH _ Hf). simpl. intros k p.
      rewrite od_get_set. destruct (decide (key = k)) as [_ | _].
      * intros [= <-]. apply HGP.
      * apply H0.
    + intros Hf. exfalso. revert Hf. clear. generalize KeyError.
      induction keys as [| k keys IH]; simpl; [done | apply IH].
Qed.

Lemma BasisGP_init_no_value psr self :
  (∀ size pname, par_value (GPCoefficients size pname) = None) →
  BasisGP_init priorFunction basisFunction true selection name
    GPCoefficients psr = Ok self →
  ∀ k p, od_get (_coefficients self) k = Some p → par_value p = None.
Proof.
  intros HGP. unfold BasisGP_init.
  set (keys := sorted (map_to_list (selection psr)).*1).
  set (mks := (fun key => default [] (selection psr !! key)) <$> keys).
  destruct (bind_functions _ _ _ _ _) as [[prior bases] pars].
  set (s0 := MkBasisGP _ keys mks prior bases pars [] [] None None []).
  assert (Hinv0 : BasisGP_inv s0).
  { split; simpl.
    - apply sorted_strongly, NoDup_fst_map_to_list.
    - unfold mks. by rewrite length_fmap. }
  destruct (_construct_basis s0 ∅) as [s1 |] eqn:Hc; simpl; [| done].
  destruct (construct_basis_spec _ _ _ Hinv0 Hc) as (_ & _ & _ & Hco & _).
  unfold make_coefficients. intros Hm.
  apply (make_coefficients_no_value _ _ _ _ HGP Hm).
  rewrite Hco. by intros k p.
Qed.
End init.

(** The example signal has slices [a: 0..2] and [b: 2..3]. *)
Lemma construct_basis_slices_partition_witness :
  ∃ self self',
    ex_init false = Ok self ∧ _construct_basis self ∅ = Ok self'
    ∧ _slices self' = [("a", (0, 2)); ("b", (2, 3))]
    ∧ ∃ B, _basis self' = Some B
         ∧ od_keys (_slices self') = _keys self
         ∧ StronglySorted string_lt (od_keys (_slices self'))
         ∧ Forall2 (slice_of_block (_bases self) ∅)
             (zip (_keys self) (_masks self)) (_slices self')
         ∧ tiles 0 (mcols B) (od_values (_slices self'))
         ∧ ∀ j, j < mcols B →
             ∃ key, (∃ s e, od_get (_slices self') key = Some (s, e)
                            ∧ s ≤ j < e)
                  ∧ ∀ key' s e, od_get (_slices self') key' = Some (s, e) →
                                s ≤ j < e → key' = key.
Proof.
  destruct (ex_init false) as [self |] eqn:Hinit; [| by vm_compute in Hinit].
  destruct (_construct_basis self ∅) as [self' |] eqn:Hc;
    [| revert Hc; vm_compute in Hinit; injection Hinit as <-;
       by vm_compute].
  exists self, self'. split_and!; [done | done | |].
  - revert Hc. vm_compute in Hinit. injection Hinit as <-.
    vm_compute. by intros [= <-].
  - apply (construct_basis_slices_partition self ∅ self'); [| done].
    eapply BasisGP_init_inv, Hinit.
Defined.

(** ** The coefficient vector needs every coefficient in [params] *)

(** C3. The coefficient parameters of a [BasisGP] signal are the
    [GPCoefficients] instances that [__init__] creates, and these have no
    attribute [value].  So a call [get_delay(params)] that returns has found
    every key's coefficient parameter in [params]; a call whose [params]
    hold none of them, as the default [params={}], raises [AttributeError]
    at [p.value] once the basis is built; and when every coefficient is in
    [params] with a value that fits its slice, the call returns
    [np.dot(basis, c)] with the sampled value of key [k] at [c[slice(k)]]. *)
Theorem get_delay_point_value_raises priorFunction basisFunction selection
    name GPCoefficients (psr : Pulsar) (self : BasisGP_obj)
    (params : params_t) :
  (∀ size pname, par_value (GPCoefficients size pname) = None) →
  BasisGP_init priorFunction basisFunction true selection name
    GPCoefficients psr = Ok self →
  (∀ r, get_delay true self params = Ok r →
     ∀ key, key ∈ _keys self →
       ∃ p v, od_get (_coefficients self) key = Some p
            ∧ params !! par_name p = Some v)
  ∧ ∀ self', _construct_basis self params = Ok self' →
      ((∀ key p, od_get (_coefficients self) key = Some p →
                 params !! par_name p = None) →
       get_delay true self params = Raise AttributeError)
      ∧ ((∀ key p s e,
            od_get (_coefficients self) key = Some p →
            od_get (_slices self') key = Some (s, e) →
            ∃ v, params !! par_name p = Some v
               ∧ is_ok (np_broadcast1 (e - s) v)) →
         ∃ B c d,
           _basis self' = Some B ∧ length c = mcols B
           ∧ np_dot_mv B c = Ok d
           ∧ get_delay true self params = Ok (self', PyArr (Nd1 d))
           ∧ ∀ key s e, od_get (_slices self') key = Some (s, e) →
               ∃ p v, od_get (_coefficients self) key = Some p
                    ∧ params !! par_name p = Some v
                    ∧ np_broadcast1 (e - s) v = Ok (np_slice c s e)
                    ∧ ∀ l, v = Nd1 l → length l = e - s →
                           np_slice c s e = l).
Proof.
  intros HGP Hinit.
  pose proof (BasisGP_init_inv _ _ _ _ _ _ _ _ Hinit) as [Hinv Hcoef].
  specialize (Hcoef eq_refl).
  pose proof (BasisGP_init_no_value _ _ _ _ _ _ _ HGP Hinit) as Hnv.
  assert (Hcur : ∀ k p v, od_get (_coefficients self) k = Some p →
                          current_value params p = Ok v →
                          params !! par_name p = Some v).
  { intros k p v Hk. unfold current_value.
    destruct (params !! par_name p); [by intros [= ->] |].
    by rewrite (Hnv k p Hk). }
  split.
  - intros r. unfold get_delay.
    destruct (_construct_basis self params) as [self' |] eqn:Hc; [| done].
    simpl.
    destruct (construct_basis_spec _ _ _ Hinv Hc)
      as (_ & _ & _ & Hco & _ & _ & B & HB & Hkeys & _).
    rewrite HB. simpl. rewrite Hco.
    destruct (assemble_c _ _ _ _) as [c |] eqn:Hasm; [| done].
    intros _ key Hkey.
    apply assemble_c_reads in Hasm. rewrite Forall_forall in Hasm.
    rewrite <- Hkeys in Hkey. unfold od_keys in Hkey.
    apply list_elem_of_fmap in Hkey as ([k slc] & -> & Hin).
    destruct (Hasm _ Hin) as (p & v & Hp & Hv).
    exists p, v. split; [done |]. by apply (Hcur k).
  - intros self' Hc.
    destruct (construct_basis_spec _ _ _ Hinv Hc)
      as (_ & _ & _ & Hco & _ & _ & B & HB & Hkeys & _).
    split.
    + intros Hnone. unfold get_delay. rewrite Hc. simpl. rewrite HB. simpl.
      rewrite Hco.
      destruct (_slices self') as [| [k slc] sl] eqn:Hsl.
      * exfalso. simpl in Hkeys. destruct Hinv as [_ Hlen].
        revert Hc. unfold _construct_basis. rewrite <- Hkeys in *.
        destruct (_masks self); [| done]. done.
      * rewrite assemble_c_cons.
        assert (Hk : k ∈ _keys self)
          by (rewrite <- Hkeys; apply list_elem_of_here).
        destruct (Hcoef k Hk) as [p Hp]. rewrite Hp.
        unfold current_value. by rewrite (Hnone k p Hp), (Hnv k p Hp).
    + intros Hfit.
      destruct (get_delay_values_spec self params self' Hinv Hcoef Hc)
        as (B' & c & d & HB' & Hlen & Hdot & Hget & Hall).
      { intros key p s e Hp Hs.
        destruct (Hfit _ _ _ _ Hp Hs) as (v & Hv & Hok).
        exists v. split; [| done]. unfold current_value. by rewrite Hv. }
      exists B', c, d. split_and!; [done | done | done | done |].
      intros key s e Hs.
      destruct (Hall key s e Hs) as (p & v & Hp & Hv & Hb & Hl).
      exists p, v. split_and!; [done | by apply (Hcur key) | done | done].
Qed.

(** On the example signal the default call raises, and the call with the
    coefficients of both keys returns. *)
Lemma get_delay_point_value_raises_witness :
  ∃ self self',
    ex_init true = Ok self
    ∧ _construct_basis self ∅ = Ok self'
    ∧ get_delay true self ∅ = Raise AttributeError
    ∧ ∀ r, get_delay true self ex_params = Ok r →
        ∀ key, key ∈ _keys self →
          ∃ p v, od_get (_coefficients self) key = Some p
               ∧ ex_params !! par_name p = Some v.
Proof.
  destruct (ex_init true) as [self |] eqn:Hinit; [| by vm_compute in Hinit].
  destruct (_construct_basis self ∅) as [self' |] eqn:Hc;
    [| revert Hc; vm_compute in Hinit; injection Hinit as <-;
       by vm_compute].
  exists self, self'. split_and!; [done | done | |].
  - destruct (get_delay_point_value_raises ex_prior ex_basis ex_selection
                "gp" ex_GPCoefficients ex_psr self ∅ (fun _ _ => eq_refl)
                Hinit) as [_ Hdefault].
    destruct (Hdefault self' Hc) as [Hraise _]. apply Hraise.
    intros key p _. apply lookup_empty.
  - destruct (get_delay_point_value_raises ex_prior ex_basis ex_selection
                "gp" ex_GPCoefficients ex_psr self ex_params
                (fun _ _ => eq_refl) Hinit) as [Hreturns _].
    apply Hreturns.
Defined.

(** The two calls evaluated, and the call with the coefficients of key [a]
    only, which raises at the point value of key [b]; with both keys
    sampled [c = [5; 7; 3]]. *)
Example ex_get_delay :
  ∃ self self' d,
    ex_init true = Ok self
    ∧ get_delay true self ∅ = Raise AttributeError
    ∧ get_delay true self ex_params = Raise AttributeError
    ∧ get_delay true self ex_params_ab = Ok (self', PyArr (Nd1 d))
    ∧ _basis self'
      = Some (Matrix 3 [[0; 0; 1]; [1; 1; 0]; [1; 1; 0]]%R)
    ∧ d = [vdot [0; 0; 1] [5; 7; 3]; vdot [1; 1; 0] [5; 7; 3];
           vdot [1; 1; 0] [5; 7; 3]]%R.
Proof.
  destruct (ex_init true) as [self |] eqn:Hinit; [| by vm_compute in Hinit].
  destruct (get_delay true self ex_params_ab) as [[self' v] |] eqn:Hd;
    revert Hd; vm_compute in Hinit; injection Hinit as <-; vm_compute;
    [| done].
  intros [= <- <-]. by eexists _, _, _.
Qed.

(** ** The coefficient log-prior *)

Lemma zip_with_div_mul (c phi : list R) :
  zip_with Rdiv (zip_with Rmult c c) phi
  = zip_with (fun ci p => (ci * ci / p)%R) c phi.
Proof.
  revert phi. induction c as [| x c IH]; intros [| p phi]; simpl;
    [done | done | done |]. by rewrite IH.
Qed.

Lemma logprior_diag_spec (c phi : list R) :
  length c = length phi →
  logprior_diag c phi = Ok (gaussian_logpdf_diag c phi).
Proof.
  intros Hlen. unfold logprior_diag, np_map2.
  rewrite bool_decide_eq_true_2
    by (rewrite length_zip_with; lia).
  simpl. by rewrite zip_with_div_mul.
Qed.

Lemma gaussian_logpdf_diag_unit :
  gaussian_logpdf_diag [0; 0]%R [1; 1]%R = (- ln (2 * PI))%R.
Proof.
  unfold gaussian_logpdf_diag. simpl. rewrite ln_1. lra.
Qed.

(** C9. In coefficient mode the log-prior of the coefficient vector [c] of
    key [key] is, for a 1-D prior [phi] of the length of [c],
    [-0.5*sum(c*c/phi) - 0.5*sum(log(phi)) - 0.5*len(phi)*log(2*pi)]
    (which is [-log(2*pi)] at [phi = [1, 1]], [c = [0, 0]]); and for a 2-D
    prior [-0.5*c^T*phiinv*c - 0.5*logdet - 0.5*n*log(2*pi)], [n] the
    number of rows of [phi], with [phiinv] and [logdet] what
    [KernelMatrix(phi).inv(logdet=True)] returns. *)
Theorem coefficient_logprior_gaussian KernelMatrix_inv self key c params
    self' pf lab :
  _construct_basis self params = Ok self' →
  od_get (_prior self') key = Some pf →
  od_get (_labels self') key = Some lab →
  (∀ phi, pf_call pf lab params = Nd1 phi → length c = length phi →
     _get_coefficient_logprior true KernelMatrix_inv self key c params
     = Ok (self', gaussian_logpdf_diag c phi))
  ∧ logprior_diag [0; 0]%R [1; 1]%R = Ok (- ln (2 * PI))%R
  ∧ (∀ phi phiinv logdet,
       pf_call pf lab params = Nd2 phi →
       KernelMatrix_inv (Nd2 phi) = (phiinv, logdet) →
       mcols phiinv = length c → length (mrows phiinv) = length c →
       _get_coefficient_logprior true KernelMatrix_inv self key c params
       = Ok (self', gaussian_logpdf_full c phiinv logdet
                      (length (mrows phi)))).
Proof.
  intros Hc Hpf Hlab. split_and!.
  - intros phi Hphi Hlen. unfold _get_coefficient_logprior, getitem.
    rewrite Hc. simpl. rewrite Hpf. simpl. rewrite Hlab. simpl.
    rewrite Hphi. by rewrite logprior_diag_spec.
  - rewrite logprior_diag_spec by done. by rewrite gaussian_logpdf_diag_unit.
  - intros phi phiinv logdet Hphi Hinv Hcols Hrows.
    unfold _get_coefficient_logprior, getitem.
    rewrite Hc. simpl. rewrite Hpf. simpl. rewrite Hlab. simpl.
    rewrite Hphi. unfold logprior_full. rewrite Hinv.
    unfold np_dot_mv. rewrite decide_True by done. simpl.
    unfold np_dot_vv. rewrite bool_decide_eq_true_2
      by (by rewrite length_fmap).
    done.
Qed.

(** On the example signal, key [a] has the diagonal prior [[2, 2]]. *)
Lemma coefficient_logprior_gaussian_witness :
  ∃ self self' pf,
    ex_init true = Ok self ∧ _construct_basis self ∅ = Ok self'
    ∧ od_get (_prior self') "a" = Some pf
    ∧ od_get (_labels self') "a" = Some [2; 2]%R
    ∧ _get_coefficient_logprior true ex_KernelMatrix_inv self "a"
        [5; 7]%R ∅
      = Ok (self', gaussian_logpdf_diag [5; 7]%R [2; 2]%R).
Proof.
  destruct (ex_init true) as [self |] eqn:Hinit; [| by vm_compute in Hinit].
  destruct (_construct_basis self ∅) as [self' |] eqn:Hc;
    [| revert Hc; vm_compute in Hinit; injection Hinit as <-;
       by vm_compute].
  assert (Hpl : ∃ pf, od_get (_prior self') "a" = Some pf
                    ∧ od_get (_labels self') "a" = Some [2; 2]%R
                    ∧ pf_call pf [2; 2]%R ∅ = Nd1 [2; 2]%R).
  { revert Hc. vm_compute in Hinit. injection Hinit as <-. intros Hc.
    vm_compute in Hc. injection Hc as <-. eexists. by vm_compute. }
  destruct Hpl as (pf & Hpf & Hlab & Hcall).
  exists self, self', pf. split_and!; [done | done | done | done |].
  by apply (coefficient_logprior_gaussian ex_KernelMatrix_inv self "a"
              [5; 7]%R ∅ self' pf [2; 2]%R Hc Hpf Hlab).
Defined.

(** ** Marginalized signals and their delay *)

(** C10. An instance of the class that [BasisGP] or [BasisCommonGP]
    returns for [coefficients=False] has [get_delay(params)] equal to [0]
    for every [params], leaving the object as it is, and [delay_params]
    equal to the empty list, whatever [self.params] holds. *)
Theorem marginalized_delay_is_zero :
  (∀ Signal_params (self : BasisGP_obj) (params : params_t),
     get_delay false self params = Ok (self, PyInt 0)
     ∧ delay_params false Signal_params self = [])
  ∧ (∀ Signal_params (self : BasisCommonGP.obj) (params : params_t),
       BasisCommonGP.get_delay CoefFalse self params = Ok (self, PyInt 0)
       ∧ BasisCommonGP.delay_params CoefFalse Signal_params self = []).
Proof. split; intros; split; reflexivity. Qed.

(** ** The DMX coverage check of the wideband timing model *)

(** C6. The constructor accepts a pulsar whose first observation lies in
    two DMX intervals and whose second observation lies in none: the
    coverage counts are [[2, 0]], and their sum is the number of
    observations. *)
Theorem wideband_init_accepts_miscovered :
  WidebandTimingModel.assign_dmx ex_wb_psr
  = Ok ([0%R; 0%R], [0; 1], [[true; false]; [true; false]], [2%Z; 0%Z])
  ∧ ∃ self, ex_wideband_init ex_wb_psr = Ok self
          ∧ WidebandTimingModel._dmwhich self
            = [[true; false]; [true; false]]
          ∧ WidebandTimingModel._ntoas self = 2.
Proof.
  split; [by vm_compute |].
  destruct (ex_wideband_init ex_wb_psr) as [self |] eqn:Hinit;
    [| by vm_compute in Hinit].
  exists self. vm_compute in Hinit. injection Hinit as <-. done.
Qed.

(** ** The cross-covariance of common signals *)

(** C5, as stated, fails: with the constant overlap reduction function,
    which is symmetric, [get_phicross(a, b)] is the prior on the labels of
    [a] and [get_phicross(b, a)] the prior on the labels of [b]; the two
    differ in magnitude when the labels do. *)
Lemma get_phicross_not_symmetric :
  ∃ a b,
    ex_common ex_psrA = Ok a ∧ ex_common ex_psrB = Ok b
    ∧ (∀ p q params,
         of_call (ex_orf "gw") p q params = of_call (ex_orf "gw") q p params)
    ∧ ex_get_phicross a b = Ok (Some (Nd1 [1 * 1]%R))
    ∧ ex_get_phicross b a = Ok (Some (Nd1 [(1 + 1) * 1]%R))
    ∧ np_abs (Nd1 [1 * 1]%R) ≠ np_abs (Nd1 [(1 + 1) * 1]%R).
Proof.
  destruct (ex_common ex_psrA) as [a |] eqn:Ha; [| by vm_compute in Ha].
  destruct (ex_common ex_psrB) as [b |] eqn:Hb; [| by vm_compute in Hb].
  exists a, b. vm_compute in Ha. injection Ha as <-.
  vm_compute in Hb. injection Hb as <-.
  split_and!; [done | done | done | by vm_compute | by vm_compute |].
  simpl. intros [= H]. rewrite !Rmult_1_r in H.
  rewrite !Rabs_pos_eq in H by lra. lra.
Qed.

(** C5, amended. [get_phicross(a, b, params)] of a marginalized
    [BasisCommonGP] class is the shared prior on the labels of [a] times
    the overlap reduction function at the positions of [a] and [b]; for the
    FFT variant it is the prior that [a] constructs times that value.  It is
    the same under swapping [a] and [b] when the overlap reduction function
    takes the same value at the swapped positions and the prior of [a]
    equals the prior of [b]. *)
Theorem get_phicross_prior_times_orf priorFunction orfFunction name
    (a b : BasisCommonGP.obj) (params : params_t) (lab_a : labels_t) :
  BasisCommonGP._labels a = Some lab_a →
  let prior := pf_call (priorFunction name) in
  let orf := of_call (orfFunction name) in
  let pos := BasisCommonGP._psrpos in
  let phicross :=
    BasisCommonGP.get_phicross priorFunction orfFunction CoefFalse name in
  phicross a b params
  = (phi ← np_mul (prior lab_a params) (orf (pos a) (pos b) params);
     Ok (Some phi))
  ∧ (∀ lab_b,
       BasisCommonGP._labels b = Some lab_b →
       orf (pos a) (pos b) params = orf (pos b) (pos a) params →
       prior lab_a params = prior lab_b params →
       phicross a b params = phicross b a params)
  ∧ (∀ cutbins psd2cov call_components
       (fa fb : FFTBasisCommonGP.obj),
       let fprior :=
         FFTBasisCommonGP._construct_prior priorFunction name cutbins
           psd2cov call_components in
       let fcross :=
         FFTBasisCommonGP.get_phicross priorFunction orfFunction name
           cutbins psd2cov call_components in
       let fpos f := pos (FFTBasisCommonGP.common f) in
       fcross fa fb params
       = (phi1 ← fprior fa params;
          np_mul phi1 (orf (fpos fa) (fpos fb) params))
       ∧ (orf (fpos fa) (fpos fb) params = orf (fpos fb) (fpos fa) params →
          fprior fa params = fprior fb params →
          fcross fa fb params = fcross fb fa params)).
Proof.
  intros Ha prior orf pos phicross. split_and!.
  - unfold phicross, BasisCommonGP.get_phicross. simpl. by rewrite Ha.
  - intros lab_b Hb Horf Hprior.
    unfold phicross, BasisCommonGP.get_phicross. simpl.
    rewrite Ha, Hb. simpl.
    unfold BasisCommonGP._prior, BasisCommonGP._orf.
    fold prior orf pos. by rewrite Horf, Hprior.
  - intros cutbins psd2cov callc fa fb fprior fcross fpos. split.
    + reflexivity.
    + intros Horf Hprior.
      unfold fcross, FFTBasisCommonGP.get_phicross.
      fold fprior. rewrite Hprior.
      unfold FFTBasisCommonGP._orf, BasisCommonGP._orf.
      fold orf pos. fold (fpos fa) (fpos fb). by rewrite Horf.
Qed.

(** For pulsar [A] against itself the cross term is the prior on its one
    label times the constant one, and swapping changes nothing. *)
Lemma get_phicross_prior_times_orf_witness :
  ∃ a,
    ex_common ex_psrA = Ok a
    ∧ BasisCommonGP._labels a = Some [INR 1]
    ∧ ex_get_phicross a a
      = (phi ← np_mul (Nd1 [INR 1]) (Nd0 1%R); Ok (Some phi)).
Proof.
  destruct (ex_common ex_psrA) as [a |] eqn:Ha; [| by vm_compute in Ha].
  assert (Hlab : BasisCommonGP._labels a = Some [INR 1]).
  { vm_compute in Ha. by injection Ha as <-. }
  exists a. split_and!; [done | done |].
  apply (get_phicross_prior_times_orf ex_common_prior ex_orf "gw" a a ∅
           [INR 1] Hlab).
Defined.

(** ** The PSD of the FFT prior *)

(** C4, as stated, fails: on the frequencies [[0, 1, 2]] with the generator
    [f + 1] and [cutbins = 0], the PSD at the zero-frequency bin is
    [-(0 + 1)], the negative of the generator's value at frequency zero,
    and not [-(1 + 1)], the negative of its value at the first nonzero
    frequency. *)
Lemma fft_zero_bin_is_not_mirror :
  ex_fft_construct_prior 0 = Ok (Nd1 [- (0 + 1); 1 + 1; 2 + 1]%R)
  ∧ (- (0 + 1) ≠ - (1 + 1))%R.
Proof. split; [by vm_compute | lra]. Qed.

Lemma fft_psd_zero prior freqs f1 psd_prior p1 :
  freqs !! 1 = Some f1 →
  prior (f1 :: freqs) = Ok (Nd1 psd_prior) →
  psd_prior !! 1 = Some p1 →
  fft_psd prior freqs 0 = Ok (Nd1 ((- p1)%R :: drop 2 psd_prior)).
Proof.
  intros Hf Hp Hp1. unfold fft_psd. rewrite bool_decide_eq_true_2 by done.
  rewrite Hf. simpl. rewrite Hp. simpl. by rewrite Hp1.
Qed.

Lemma fft_psd_cut prior freqs cutbins v :
  (0 < cutbins)%Z →
  prior (drop 1 freqs) = Ok (Nd1 v) →
  fft_psd prior freqs cutbins
  = Ok (Nd1 (np_zeros1 (Z.to_nat cutbins)
             ++ drop (Z.to_nat cutbins - 1) v)).
Proof.
  intros Hc Hp. unfold fft_psd.
  rewrite bool_decide_eq_false_2 by lia. rewrite Hp. simpl.
  rewrite bool_decide_eq_false_2 by lia.
  by replace (Z.to_nat (cutbins - 1)) with (Z.to_nat cutbins - 1) by lia.
Qed.

Lemma fft_psd_ext prior prior' freqs cutbins :
  (∀ fs, prior fs = prior' fs) →
  fft_psd prior freqs cutbins = fft_psd prior' freqs cutbins.
Proof.
  intros H. unfold fft_psd. case_bool_decide.
  - destruct (freqs !! 1) as [f1 |]; simpl; [| done]. by rewrite H.
  - by rewrite H.
Qed.

(** C4, amended. In both FFT prior constructions the PSD handed to
    [psd2cov] is [fft_psd]: for [cutbins = 0] the generator is evaluated on
    [[freqs[1]] + freqs], whose entry 1 is [freqs[0]], and the PSD is the
    negative of the generator's output at that entry followed by its
    outputs from entry 2 on; for [cutbins > 0] the generator is evaluated
    on [freqs[1:]] and the PSD is [cutbins] zeros followed by the
    generator's outputs from entry [cutbins - 1] on. *)
Theorem fft_psd_policy (prior : list R -> result ndarray) (freqs : list R)
    (cutbins : Z) :
  (∀ f1 psd_prior p1,
     cutbins = 0%Z →
     freqs !! 1 = Some f1 →
     prior (f1 :: freqs) = Ok (Nd1 psd_prior) →
     psd_prior !! 1 = Some p1 →
     (f1 :: freqs) !! 1 = freqs !! 0
     ∧ fft_psd prior freqs cutbins
       = Ok (Nd1 ((- p1)%R :: drop 2 psd_prior)))
  ∧ (∀ v,
       (0 < cutbins)%Z →
       prior (drop 1 freqs) = Ok (Nd1 v) →
       ∃ psd,
         fft_psd prior freqs cutbins = Ok (Nd1 psd)
         ∧ take (Z.to_nat cutbins) psd = np_zeros1 (Z.to_nat cutbins)
         ∧ drop (Z.to_nat cutbins) psd = drop (Z.to_nat cutbins - 1) v)
  ∧ (∀ spectrum name psd2cov call_components
       (self : FFTBasisCommonGP.obj) (params : params_t) t_knots,
       FFTBasisCommonGP._freqs self = Some freqs →
       FFTBasisCommonGP._t_knots self = Some t_knots →
       (∀ fs, prior fs = Ok (call_components (spectrum name) fs params)) →
       FFTBasisCommonGP._construct_prior spectrum name cutbins psd2cov
         call_components self params
       = (psd ← fft_psd prior freqs cutbins; Ok (psd2cov t_knots psd)))
  ∧ (∀ knots_to_freqs psd2cov call_components KernelMatrix_set
       (self : BasisGP_obj) (params : params_t) key slc t_knots pf phi,
       od_get (_labels self) key = Some t_knots →
       od_get (_prior self) key = Some pf →
       _phi self = Some phi →
       knots_to_freqs t_knots = freqs →
       (∀ fs, prior fs = Ok (call_components pf fs params)) →
       FFTBasisGP.prior_step cutbins knots_to_freqs psd2cov call_components
         KernelMatrix_set params (Ok self) (key, slc)
       = (psd ← fft_psd prior freqs cutbins;
          Ok (FFTBasisGP.set_phi self
                (KernelMatrix_set phi (psd2cov t_knots psd) slc)))).
Proof.
  split_and!.
  - intros f1 psd_prior p1 -> Hf Hp Hp1. split; [done |].
    by apply fft_psd_zero with f1.
  - intros v Hc Hp. eexists. split; [by apply fft_psd_cut |].
    unfold np_zeros1. split.
    + rewrite take_app_length'; [done | by rewrite length_replicate].
    + rewrite drop_app_length'; [done | by rewrite length_replicate].
  - intros spectrum name psd2cov callc self params t_knots Hfr Hk Hprior.
    unfold FFTBasisCommonGP._construct_prior. rewrite Hfr, Hk. simpl.
    rewrite (fft_psd_ext prior
               (fun fs => Ok (callc (FFTBasisCommonGP._prior spectrum name)
                                fs params))) by done.
    by destruct (fft_psd _ _ _).
  - intros k2f psd2cov callc KMset self params key slc t_knots pf phi
      Hlab Hpf Hphi Hfreqs Hprior.
    unfold FFTBasisGP.prior_step, getitem. simpl.
    rewrite Hlab. simpl. rewrite Hfreqs.
    rewrite (fft_psd_ext prior
               (fun fs => pf ← of_option KeyError (od_get (_prior self) key);
                          Ok (callc pf fs params))).
    + destruct (fft_psd _ _ _); simpl; [| done]. by rewrite Hphi.
    + intros fs. rewrite Hpf. simpl. apply Hprior.
Qed.

(** The example generator on [[0, 1, 2]]: with [cutbins = 0] the PSD starts
    with the negated value at frequency zero, with [cutbins = 2] it starts
    with two zeros. *)
Lemma fft_psd_policy_witness :
  let prior := fun fs => Ok (Nd1 ((fun f => f + 1)%R <$> fs)) in
  fft_psd prior [0; 1; 2]%R 0 = Ok (Nd1 [- (0 + 1); 1 + 1; 2 + 1]%R)
  ∧ (∃ psd,
       fft_psd prior [0; 1; 2]%R 2 = Ok (Nd1 psd)
       ∧ take 2 psd = np_zeros1 2
       ∧ drop 2 psd = drop 1 [1 + 1; 2 + 1]%R)
  ∧ ex_fft_construct_prior 2
    = (psd ← fft_psd prior [0; 1; 2]%R 2; Ok psd).
Proof.
  intros prior.
  pose proof (fft_psd_policy prior [0; 1; 2]%R 0) as (H0 & _ & _ & _).
  pose proof (fft_psd_policy prior [0; 1; 2]%R 2) as (_ & H2 & H3 & _).
  split_and!.
  - by apply (H0 1%R [1 + 1; 0 + 1; 1 + 1; 2 + 1]%R (0 + 1)%R).
  - by apply (H2 [1 + 1; 2 + 1]%R).
  - by apply (H3 ex_spectrum "gw" (fun _ psd => psd) ex_call_components
                ex_fft_common ∅ [0; 1; 2]%R).
Defined.

(** ** Addition of a [MarginalizingNmat] *)

(** C7. [self + other] and [other + self] agree.  Adding an instance of
    [MarginalizingNmat] raises [ValueError]; adding an [np.ndarray] or an
    object with [solve] returns a new instance (its identity is the fresh
    one) with the basis of [self], the noise [self.Nmat + other] and the
    same [Mprior]; adding the integer zero, or anything that equals zero,
    returns [self] itself. *)
Theorem add_dispatch py_add (fresh id0 : nat) (M : array_obj) (N0 : noise)
    (self : MarginalizingNmat.obj) :
  MarginalizingNmat.__init__ id0 M N0 = Ok self →
  fresh ≠ id0 →
  let add := MarginalizingNmat.__add__ py_add fresh self in
  (∀ other, MarginalizingNmat.__radd__ py_add fresh self other = add other)
  ∧ (∀ m, add (MarginalizingNmat.OpMarginalizing m)
          = Raise (ValueError
                     "Cannot combine multiple MarginalizingNmat objects."))
  ∧ (∀ other N,
       (∃ a, other = MarginalizingNmat.OpNdarray a)
       ∨ (∃ s, other = MarginalizingNmat.OpSolver s) →
       py_add N0 other = Ok N →
       ∃ new,
         add other = Ok new
         ∧ MarginalizingNmat.__init__ fresh M N = Ok new
         ∧ MarginalizingNmat.m_id new = fresh
         ∧ MarginalizingNmat.m_id new ≠ MarginalizingNmat.m_id self
         ∧ MarginalizingNmat.Mmat new = MarginalizingNmat.Mmat self
         ∧ MarginalizingNmat.Nmat new = N
         ∧ MarginalizingNmat.Mprior new = MarginalizingNmat.Mprior self)
  ∧ add (MarginalizingNmat.OpInt 0) = Ok self
  ∧ add (MarginalizingNmat.OpOther true) = Ok self.
Proof.
  intros Hinit Hfresh add. unfold MarginalizingNmat.__init__ in Hinit.
  destruct (MarginalizingNmat.shape1 (arr_val M)) as [k |] eqn:Hk;
    [| done].
  simpl in Hinit. injection Hinit as <-.
  split_and!; [done | done | | done | done].
  intros other N Hother Hadd. eexists.
  assert (Hnew : add other
                 = MarginalizingNmat.__init__ fresh M N).
  { unfold add. destruct Hother as [[a ->] | [s ->]]; simpl;
      by rewrite Hadd. }
  rewrite Hnew. unfold MarginalizingNmat.__init__. rewrite Hk. simpl.
  split_and!; done.
Qed.

(** Starting from [MarginalizingNmat(Mmat)], adding the identity noise
    gives a new instance that holds it. *)
Lemma add_dispatch_witness :
  ∃ self new,
    MarginalizingNmat.__init__ 10 ex_Mmat (NInt 0) = Ok self
    ∧ MarginalizingNmat.__add__ ex_py_add 11 self
        (MarginalizingNmat.OpSolver ex_solver) = Ok new
    ∧ MarginalizingNmat.m_id new = 11
    ∧ MarginalizingNmat.Nmat new = NSolver ex_solver
    ∧ MarginalizingNmat.__add__ ex_py_add 11 self
        (MarginalizingNmat.OpInt 0) = Ok self.
Proof.
  destruct (MarginalizingNmat.__init__ 10 ex_Mmat (NInt 0)) as [self |]
    eqn:Hinit; [| by cbv in Hinit].
  assert (Hfresh : 11 ≠ 10) by lia.
  destruct (add_dispatch ex_py_add 11 10 ex_Mmat (NInt 0) self Hinit Hfresh)
    as (_ & _ & Hadd & Hzero & _).
  destruct (Hadd (MarginalizingNmat.OpSolver ex_solver) (NSolver ex_solver))
    as (new & Hnew & _ & Hid & _ & _ & HN & _);
    [right; by eexists | done |].
  exists self, new. split_and!; done.
Defined.

(** ** The dispatch of [solve] *)

(** C8, as stated, fails: a vector against a different vector is none of
    the four combinations, and [solve] does not raise on it but takes the
    last branch. *)
Lemma solve_accepts_two_vectors :
  ∃ m v,
    ex_marg = Ok m
    ∧ nv_ndim (arr_val ex_res) = 1 ∧ nv_ndim (arr_val ex_res') = 1
    ∧ py_is ex_res' ex_res = false
    ∧ ex_marg_solve m ex_res (Some ex_res') false = Ok v
    ∧ ex_marg_solve m ex_res (Some ex_res') false
      = MarginalizingNmat.solve_general ex_cholesky ex_tensordot m ex_res
          ex_res'.
Proof.
  destruct ex_marg as [m |] eqn:Hm; [| by cbv in Hm].
  cbv in Hm. injection Hm as <-.
  eexists _, _. split_and!; [done | done | done | done | | done].
  cbv -[Rplus Rmult Rminus Rdiv ln IZR]. reflexivity.
Qed.

(** C8, amended. [solve] tests in this order: a 1-D [right] that is
    [left_array]; a 1-D [right] with a 2-D [left_array]; a 2-D [right] that
    is [left_array]; a [left_array] of the dimension of [right], at most
    two (two matrices, and also two distinct vectors or two 0-d arrays).
    It raises [ValueError] in the remaining cases, that is when
    [left_array] is [None] and when the dimensions differ other than as one
    and two or exceed two. *)
Theorem solve_dispatch cholesky np_tensordot (self : MarginalizingNmat.obj)
    (right : array_obj) (left_array : option array_obj) (logdet : bool) :
  let nd := nv_ndim (arr_val right) in
  let solve :=
    MarginalizingNmat.solve cholesky np_tensordot self right left_array
      logdet in
  let c1 := bool_decide (nd = 1)
            && MarginalizingNmat.is_right left_array right in
  let c2 l := bool_decide (nd = 1) && bool_decide (nv_ndim (arr_val l) = 2) in
  let c3 l := bool_decide (nd = 2) && py_is l right in
  let c4 l := bool_decide (nd = nv_ndim (arr_val l)) && bool_decide (nd ≤ 2) in
  (c1 = true →
   solve = MarginalizingNmat.solve_vector_self cholesky self right logdet)
  ∧ (∀ l, left_array = Some l → c1 = false → c2 l = true →
       solve = MarginalizingNmat.solve_vector_basis cholesky np_tensordot
                 self right l)
  ∧ (∀ l, left_array = Some l → c1 = false → c2 l = false → c3 l = true →
       solve = MarginalizingNmat.solve_matrix_self cholesky np_tensordot
                 self right)
  ∧ (∀ l, left_array = Some l → c1 = false → c2 l = false → c3 l = false →
       c4 l = true →
       solve = MarginalizingNmat.solve_general cholesky np_tensordot self
                 right l)
  ∧ (∀ l, left_array = Some l → py_is l right = false → nd = 1 →
       nv_ndim (arr_val l) = 1 →
       solve = MarginalizingNmat.solve_general cholesky np_tensordot self
                 right l)
  ∧ ((left_array = None ∧ c1 = false)
     ∨ (∃ l, left_array = Some l ∧ c1 = false ∧ c2 l = false
             ∧ c3 l = false ∧ c4 l = false) →
     solve = Raise (ValueError
                      "Incorrect arguments given to MarginalizingNmat.solve."))
  ∧ (left_array = None → c1 = false)
  ∧ (∀ l, left_array = Some l → py_is l right = false →
       nd ≠ nv_ndim (arr_val l) → ¬ (nd = 1 ∧ nv_ndim (arr_val l) = 2) →
       c1 = false ∧ c2 l = false ∧ c3 l = false ∧ c4 l = false)
  ∧ (∀ l, left_array = Some l → 2 < nd →
       c1 = false ∧ c2 l = false ∧ c3 l = false ∧ c4 l = false).
Proof.
  intros nd solve c1 c2 c3 c4. unfold solve, MarginalizingNmat.solve.
  fold nd. fold c1. split_and!.
  - by intros ->.
  - intros l -> -> H2. fold (c2 l). by rewrite H2.
  - intros l -> -> H2 H3. fold (c2 l) (c3 l). by rewrite H2, H3.
  - intros l -> -> H2 H3 H4. fold (c2 l) (c3 l) (c4 l).
    by rewrite H2, H3, H4.
  - intros l -> Hne H1 Hl. unfold c1. simpl. by rewrite Hne, H1, Hl.
  - intros [[-> ->] | (l & -> & -> & H2 & H3 & H4)]; [done |].
    fold (c2 l) (c3 l) (c4 l). by rewrite H2, H3, H4.
  - intros ->. unfold c1. simpl. apply andb_false_r.
  - intros l -> Hne Hnd H12. unfold c1, c2, c3, c4. simpl. rewrite Hne.
    rewrite !andb_false_r. split_and!; [done | | done |].
    + apply andb_false_iff.
      destruct (decide (nd = 1)) as [H1 | H1].
      * right. apply bool_decide_eq_false_2. tauto.
      * left. by apply bool_decide_eq_false_2.
    + apply andb_false_iff. left. by apply bool_decide_eq_false_2.
  - intros l -> Hnd. unfold c1, c2, c3, c4.
    rewrite !(bool_decide_eq_false_2 (nd = 1)) by lia.
    rewrite !(bool_decide_eq_false_2 (nd = 2)) by lia.
    rewrite !(bool_decide_eq_false_2 (nd ≤ 2)) by lia.
    by rewrite !andb_false_r.
Qed.

(** With a 2-D [right] and no [left_array], [solve] raises. *)
Lemma solve_dispatch_witness :
  ∃ m, ex_marg = Ok m
       ∧ ex_marg_solve m ex_Mmat None false
         = Raise (ValueError
                    "Incorrect arguments given to MarginalizingNmat.solve.").
Proof.
  destruct ex_marg as [m |] eqn:Hm; [| by cbv in Hm].
  exists m. split; [done |].
  destruct (solve_dispatch ex_cholesky ex_tensordot m ex_Mmat None false)
    as (_ & _ & _ & _ & _ & Herr & Hnone & _).
  apply Herr. left. split; [done | by apply Hnone].
Defined.

(** ** The marginalized quadratic form *)

(** C2. For a [MarginalizingNmat] made from a basis [M] with [k] columns
    and a noise operator with [solve], and a 1-D [r]:
    [solve(r, left_array=r, logdet=True)] returns the quadratic form
    [rNr - MNr . cf(MNr)] together with
    [logdet_N + cf.logdet() + k * log(1e40)], where [rNr] and [logdet_N]
    come from the noise operator's own solve, [MNr] is its solve of [r]
    against [M] and [cf] is the Cholesky factor of its solve of [M] against
    [M]; with [logdet=False] it returns the quadratic form alone. *)
Theorem solve_vector_self_logdet cholesky np_tensordot (id k : nat)
    (M r : array_obj) (s : solver) (self : MarginalizingNmat.obj)
    (rNr logdet_N : R) (MNr cfMNr : list R) (MNM : ndarray) (f : factor) :
  MarginalizingNmat.__init__ id M (NSolver s) = Ok self →
  MarginalizingNmat.shape1 (arr_val M) = Ok k →
  nv_ndim (arr_val r) = 1 →
  s_solve_logdet s r r = Ok (Nd0 rNr, logdet_N) →
  s_solve s r (Some M) = Ok (Nd1 MNr) →
  s_solve s M (Some M) = Ok MNM →
  cholesky MNM = Ok f →
  f_call f (Nd1 MNr) = Ok (Nd1 cfMNr) →
  length MNr = length cfMNr →
  let solve := MarginalizingNmat.solve cholesky np_tensordot self r (Some r) in
  let quad := Nd0 (rNr - vdot MNr cfMNr)%R in
  solve true
  = Ok (MarginalizingNmat.RetTuple quad
          (logdet_N + f_logdet f + INR k * ln 1e40)%R)
  ∧ solve false = Ok (MarginalizingNmat.RetArr quad).
Proof.
  intros Hinit Hk Hnd Hrr Hmnr Hmnm Hch Hcall Hlen solve quad.
  unfold MarginalizingNmat.__init__ in Hinit. rewrite Hk in Hinit.
  simpl in Hinit. injection Hinit as <-.
  assert (Hcf : MarginalizingNmat.cf cholesky
                  (MarginalizingNmat.Mk id M (NSolver s)
                     (INR k * ln 1e40)%R) = Ok f).
  { unfold MarginalizingNmat.cf, MarginalizingNmat.Nmat_solve. simpl.
    by rewrite Hmnm. }
  unfold solve, MarginalizingNmat.solve. rewrite Hnd.
  unfold MarginalizingNmat.is_right, py_is.
  rewrite !bool_decide_eq_true_2 by done. simpl.
  unfold MarginalizingNmat.solve_vector_self.
  unfold MarginalizingNmat.Nmat_solve_logdet, MarginalizingNmat.MNr,
    MarginalizingNmat.Nmat_solve. simpl.
  rewrite Hrr. simpl. rewrite Hmnr. simpl. rewrite Hcf. simpl.
  rewrite Hcall. simpl. unfold np_dot_vv.
  rewrite bool_decide_eq_true_2 by done. simpl. done.
Qed.

(** The identity noise, the basis [[1], [0]] and [r = [3, 4]]. *)
Lemma solve_vector_self_logdet_witness :
  ∃ self quad f,
    MarginalizingNmat.__init__ 11 ex_Mmat (NSolver ex_solver) = Ok self
    ∧ ex_marg_solve self ex_res (Some ex_res) true
      = Ok (MarginalizingNmat.RetTuple quad
              (0 + f_logdet f + INR 1 * ln 1e40)%R)
    ∧ ex_marg_solve self ex_res (Some ex_res) false
      = Ok (MarginalizingNmat.RetArr quad).
Proof.
  destruct (MarginalizingNmat.__init__ 11 ex_Mmat (NSolver ex_solver))
    as [self |] eqn:Hinit; [| by cbv in Hinit].
  eexists self, _, _. split; [done |].
  eapply (solve_vector_self_logdet ex_cholesky ex_tensordot 11 1 ex_Mmat
            ex_res ex_solver self);
    [done | done | done | by cbv -[Rplus Rmult Rminus Rdiv ln IZR]
    | by cbv -[Rplus Rmult Rminus Rdiv ln IZR]
    | by cbv -[Rplus Rmult Rminus Rdiv ln IZR]
    | by cbv -[Rplus Rmult Rminus Rdiv ln IZR]
    | by cbv -[Rplus Rmult Rminus Rdiv ln IZR] | done].
Defined.

(** * Further properties of the module *)

(** ** Construction of the wideband timing model *)

(** The marginalized [BasisGP] constructor builds no basis and cannot
    fail. *)
Lemma BasisGP_init_marginalized_ok priorFunction basisFunction selection
    name GPCoefficients psr :
  ∃ self,
    BasisGP_init priorFunction basisFunction false selection name
      GPCoefficients psr = Ok self.
Proof.
  unfold BasisGP_init.
  destruct (bind_functions _ _ _ _ _) as [[prior bases] pars]. by eexists.
Qed.

Lemma sel_keys_masks_singleton key mask :
  sel_keys_masks {[key := mask]} = ([key], [mask]).
Proof.
  unfold sel_keys_masks. rewrite map_to_list_singleton. simpl.
  unfold sorted. simpl. by rewrite lookup_singleton_eq.
Qed.

(** With a DMJUMP parameter class and a DMJUMP selection that has the
    single key [""] (as the default [no_selection] has), the constructor
    raises [ValueError] on every pulsar: the default arguments of the
    factory cannot be instantiated. *)
Theorem wideband_init_single_dmjump_key dmefac log10_dmequad mk selection
    dmjump_selection dmjump_ref name basis prior no_selection GPCoefficients
    (psr : Pulsar) (mask : mask_t) :
  dmjump_selection psr = {[EmptyString := mask]} →
  WidebandTimingModel.__init__ dmefac log10_dmequad (Some mk) selection
    dmjump_selection dmjump_ref name basis prior no_selection GPCoefficients
    psr
  = Raise (ValueError
      "WidebandTimingModel: can only do DMJUMP with more than one selection.").
Proof.
  intros Hsel. unfold WidebandTimingModel.__init__,
    WidebandTimingModel.BaseClass_init.
  destruct (BasisGP_init_marginalized_ok prior basis no_selection name
              GPCoefficients psr) as [b ->].
  simpl. rewrite Hsel, map_to_list_singleton. done.
Qed.

Lemma wideband_init_single_dmjump_key_witness :
  WidebandTimingModel.__init__
    (fun pname => MkPar pname (Some (Nd0 1%R))) None
    (Some (fun pname => MkPar pname (Some (Nd0 0%R))))
    ex_no_selection ex_no_selection None "wideband_timing_model"
    ex_tm_basis ex_tm_prior ex_no_selection ex_GPCoefficients ex_wb_psr
  = Raise (ValueError
      "WidebandTimingModel: can only do DMJUMP with more than one selection.").
Proof.
  by apply (wideband_init_single_dmjump_key _ _ _ _ _ _ _ _ _ _ _ ex_wb_psr
              [true; true]).
Defined.

Lemma py_index_spec l k i :
  py_index l k = Ok i →
  l !! i = Some k ∧ ∀ j, j < i → l !! j ≠ Some k.
Proof.
  revert i. induction l as [| x l IH]; simpl; intros i; [done |].
  destruct (decide (x = k)) as [-> | Hne].
  - intros [= <-]. split; [done | lia].
  - destruct (py_index l k) as [i' |]; simpl; [| done].
    intros [= <-]. destruct (IH i' eq_refl) as [Hi Hlt]. split; [done |].
    intros [| j] Hj; simpl; [by intros [= ->] | apply Hlt; lia].
Qed.

Lemma dmx_fold_raise psr e keys :
  foldl (WidebandTimingModel.dmx_step psr) (Raise e) keys = Raise e.
Proof. induction keys as [| k keys IH]; simpl; [done | apply IH]. Qed.

Lemma np_iadd_mask_spec check which check' :
  np_iadd_mask check which = Ok check' →
  length which = length check →
  length check' = length check
  ∧ ∀ i c, check !! i = Some c →
      check' !! i
      = Some (c + Z.of_nat (coverage [which] i))%Z.
Proof.
  unfold np_iadd_mask. intros H Hlen.
  rewrite bool_decide_eq_true_2 in H by done. injection H as <-.
  split; [rewrite length_zip_with; lia |].
  intros i c Hc. rewrite lookup_zip_with, Hc. simpl.
  unfold coverage. rewrite filter_cons, filter_nil. unfold mask_t in *.
  destruct (which !! i) as [b |] eqn:Hb.
  - simpl. by destruct b.
  - apply lookup_ge_None in Hb. apply lookup_lt_Some in Hc. lia.
Qed.

Lemma coverage_cons w W i :
  coverage (w :: W) i = coverage [w] i + coverage W i.
Proof.
  unfold coverage. rewrite !filter_cons, filter_nil.
  destruct (decide (w !! i = Some true)); simpl; lia.
Qed.

(** What the loop over the DMX parameters has done when it completes. *)
Lemma dmx_fold_spec psr keys dmxs idxs whichs check r :
  foldl (WidebandTimingModel.dmx_step psr) (Ok (dmxs, idxs, whichs, check))
    keys = Ok r →
  ∃ D I W check',
    r = (dmxs ++ D, idxs ++ I, whichs ++ W, check')
    ∧ length D = length keys ∧ length I = length keys
    ∧ length W = length keys
    ∧ (∀ n key, keys !! n = Some key →
         ∃ dmx i which,
           D !! n = Some dmx ∧ I !! n = Some i ∧ W !! n = Some which
           ∧ dmx_entry psr key dmx i which)
    ∧ (length (psr_stoas psr) = length check →
       length check' = length check
       ∧ ∀ i c, check !! i = Some c →
           check' !! i = Some (c + Z.of_nat (coverage W i))%Z).
Proof.
  revert dmxs idxs whichs check.
  induction keys as [| key keys IH]; intros dmxs idxs whichs check; simpl.
  - intros [= <-]. exists [], [], [], check. rewrite !app_nil_r.
    split_and!; [done | done | done | done | done |].
    intros _. split; [done |]. intros i c ->. f_equal. unfold coverage. simpl. lia.
  - destruct (psr_dmx psr !! key) as [[[[fit dmx] r1] r2] |] eqn:Hkey;
      simpl; [| by rewrite dmx_fold_raise].
    destruct fit; simpl; [| by rewrite dmx_fold_raise].
    destruct (py_index (psr_fitpars psr) key) as [i |] eqn:Hidx; simpl;
      [| by rewrite dmx_fold_raise].
    destruct (np_iadd_mask check (in_interval r1 r2 <$> psr_stoas psr))
      as [check1 |] eqn:Hadd; simpl; [| by rewrite dmx_fold_raise].
    intros Hfold. apply IH in Hfold as (D & I & W & check' & -> & HD & HI
                                         & HW & Hent & Hcheck).
    exists (dmx :: D), (i :: I),
      ((in_interval r1 r2 <$> psr_stoas psr) :: W), check'.
    rewrite <- !app_assoc. simpl.
    split_and!; [done | lia | lia | lia | |].
    + intros [| n] key'; simpl.
      * intros [= <-]. eexists _, _, _. split_and!; [done | done | done |].
        apply py_index_spec in Hidx as [Hi Hlt]. by exists r1, r2.
      * apply Hent.
    + intros Hlen.
      apply np_iadd_mask_spec in Hadd as [Hlen1 Hc1];
        [| by rewrite length_fmap].
      destruct Hcheck as [Hlen' Hc']; [lia |]. split; [lia |].
      intros j c Hc. rewrite (Hc' j _ (Hc1 j c Hc)), (coverage_cons _ W).
      f_equal. lia.
Qed.

Lemma np_sum_Z_le (l : list Z) :
  (∀ i c, l !! i = Some c → (0 ≤ c ≤ 1)%Z) →
  (np_sum_Z l ≤ Z.of_nat (length l))%Z.
Proof.
  induction l as [| x l IH]; simpl; intros H; [done |].
  pose proof (H 0 x eq_refl).
  assert (np_sum_Z l ≤ Z.of_nat (length l))%Z
    by (apply IH; intros i c Hc; by apply (H (S i))).
  lia.
Qed.

Lemma np_sum_Z_all_one (l : list Z) :
  (∀ i c, l !! i = Some c → (0 ≤ c ≤ 1)%Z) →
  np_sum_Z l = Z.of_nat (length l) →
  ∀ i c, l !! i = Some c → c = 1%Z.
Proof.
  induction l as [| x l IH]; simpl; intros H Hsum i c Hc; [done |].
  pose proof (H 0 x eq_refl).
  assert (Hl : ∀ i c, l !! i = Some c → (0 ≤ c ≤ 1)%Z)
    by (intros j d Hd; by apply (H (S j))).
  pose proof (np_sum_Z_le l Hl).
  destruct i as [| i]; simpl in Hc.
  - injection Hc as <-. lia.
  - apply (IH Hl) with i; [lia | done].
Qed.

Lemma np_sum_Z_of_nat (l : list Z) (f : nat → nat) (k : nat) :
  (∀ i, i < length l → l !! i = Some (Z.of_nat (f (k + i)))) →
  np_sum_Z l = Z.of_nat (sum_list (f <$> seq k (length l))).
Proof.
  revert k. induction l as [| x l IH]; simpl; intros k H; [done |].
  assert (Hx : x = Z.of_nat (f k)).
  { specialize (H 0 ltac:(lia)). simpl in H. rewrite Nat.add_0_r in H.
    by injection H. }
  rewrite (IH (S k)).
  - rewrite Hx.
    change (list_fmap nat nat f (seq (S k) (length l)))
      with (f <$> seq (S k) (length l)).
    lia.
  - intros i Hi. specialize (H (S i) ltac:(lia)). simpl in H.
    by replace (S k + i) with (k + S i) by lia.
Qed.

Section wideband.
Variable dmefac : string -> parameter.
Variable log10_dmequad : option (string -> parameter).
Variable dmjump : option (string -> parameter).
Variable selection dmjump_selection : selection_t.
Variable dmjump_ref : option string.
Variable name : string.
Variable basis : string -> Pulsar -> basis_fn.
Variable prior : string -> Pulsar -> prior_fn.
Variable no_selection : selection_t.
Variable GPCoefficients : nat -> string -> parameter.

Let init :=
  WidebandTimingModel.__init__ dmefac log10_dmequad dmjump selection
    dmjump_selection dmjump_ref name basis prior no_selection GPCoefficients.

Lemma wideband_init_ok_unfold psr self :
  init psr = Ok self →
  ∃ check,
    WidebandTimingModel.assign_dmx psr
    = Ok (WidebandTimingModel._dmx self, WidebandTimingModel._dmindex self,
          WidebandTimingModel._dmwhich self, check)
    ∧ np_sum_Z check = Z.of_nat (length (psr_toas psr))
    ∧ ("DM" ∉ psr_fitpars psr)
    ∧ WidebandTimingModel._ntoas self = length (psr_toas psr)
    ∧ WidebandTimingModel._npars self = length (psr_fitpars psr)
    ∧ WidebandTimingModel._ndmx self
      = length (WidebandTimingModel._dmx self).
Proof.
  unfold init, WidebandTimingModel.__init__.
  destruct (WidebandTimingModel.BaseClass_init _ _ _ _ _ _) as [b |];
    simpl; [| done].
  destruct (sel_keys_masks (selection psr)) as [dm_keys dm_masks].
  destruct (sel_keys_masks (dmjump_selection psr)) as [dj_keys dj_masks].
  destruct (_ && _); [done |].
  destruct (WidebandTimingModel.dm_params _ _ _ _) as [[efacs equads] pars].
  destruct (WidebandTimingModel.dmjump_params _ _ _ _ _) as [jumps pars'].
  destruct (WidebandTimingModel.assign_dmx psr)
    as [[[[dmxs idxs] whichs] check] |]; simpl; [| done].
  case_bool_decide as Hsum; simpl; [| done].
  case_bool_decide as HDM; simpl; [done |].
  intros [= <-]. simpl. by exists check.
Qed.

(** A pulsar that has [DM] among its fit parameters is never accepted. *)
Theorem wideband_init_rejects_DM psr :
  "DM" ∈ psr_fitpars psr → ∃ e, init psr = Raise e.
Proof.
  intros HDM. destruct (init psr) as [self | e] eqn:Hinit; [| by exists e].
  apply wideband_init_ok_unfold in Hinit as (check & _ & _ & Hno & _).
  done.
Qed.

(** What holds of an instance that the constructor returns: every DMX
    parameter of the pulsar, in sorted order, is fitted, is found among the
    fit parameters at the recorded index and has the recorded interval
    mask; [DM] is not fitted; and the counters are the sizes of the
    pulsar's data. *)
Theorem wideband_init_ok_inv psr self :
  init psr = Ok self →
  let keys := sorted (map_to_list (psr_dmx psr)).*1 in
  ("DM" ∉ psr_fitpars psr)
  ∧ WidebandTimingModel._ntoas self = length (psr_toas psr)
  ∧ WidebandTimingModel._npars self = length (psr_fitpars psr)
  ∧ WidebandTimingModel._ndmx self = size (psr_dmx psr)
  ∧ length (WidebandTimingModel._dmindex self) = size (psr_dmx psr)
  ∧ length (WidebandTimingModel._dmwhich self) = size (psr_dmx psr)
  ∧ ∀ n key, keys !! n = Some key →
      ∃ dmx i which,
        WidebandTimingModel._dmx self !! n = Some dmx
        ∧ WidebandTimingModel._dmindex self !! n = Some i
        ∧ WidebandTimingModel._dmwhich self !! n = Some which
        ∧ dmx_entry psr key dmx i which.
Proof.
  intros Hinit keys.
  apply wideband_init_ok_unfold in Hinit
    as (check & Hdmx & Hsum & HDM & Hnt & Hnp & Hnd).
  apply dmx_fold_spec in Hdmx
    as (D & I & W & check' & [= HeD HeI HeW _] & HD & HI & HW & Hent & _).
  simpl in HeD, HeI, HeW. rewrite HeD, HeI, HeW in *.
  assert (Hlen : length keys = size (psr_dmx psr)).
  { unfold keys, sorted. rewrite merge_sort_Permutation, length_fmap.
    by rewrite length_map_to_list. }
  fold keys in HD, HI, HW, Hent.
  split_and!; [done | done | done | lia | lia | lia | done].
Qed.
(** When the pulsar has one site arrival time per observation, an instance
    is returned only if the coverage counts of the observations add up to
    their number; and if no observation lies in two DMX intervals, then
    every observation lies in exactly one. *)
Theorem wideband_init_coverage psr self :
  init psr = Ok self →
  length (psr_stoas psr) = length (psr_toas psr) →
  let cover := coverage (WidebandTimingModel._dmwhich self) in
  let ntoas := length (psr_toas psr) in
  sum_list (cover <$> seq 0 ntoas) = ntoas
  ∧ ((∀ i, i < ntoas → cover i ≤ 1) → ∀ i, i < ntoas → cover i = 1).
Proof.
  intros Hinit Hlen cover ntoas.
  apply wideband_init_ok_unfold in Hinit
    as (check & Hdmx & Hsum & _).
  apply dmx_fold_spec in Hdmx
    as (D & I & W & check' & [= _ _ HeW <-] & _ & _ & _ & _ & Hcheck).
  simpl in HeW. destruct Hcheck as [Hlc Hc];
    [by rewrite length_replicate |].
  rewrite length_replicate in Hlc. fold ntoas in Hlc, Hsum.
  assert (Hget : ∀ i, i < ntoas →
                   check !! i = Some (Z.of_nat (cover i))).
  { intros i Hi. unfold cover. rewrite HeW.
    rewrite (Hc i 0%Z) by (by apply lookup_replicate_2). done. }
  split.
  - apply Nat2Z.inj. rewrite <- Hsum, <- Hlc.
    symmetry. apply np_sum_Z_of_nat. intros i Hi. apply Hget. lia.
  - intros Hle i Hi.
    assert (Hone : Z.of_nat (cover i) = 1%Z); [| lia].
    apply (np_sum_Z_all_one check) with i.
    + intros j c Hj. assert (j < ntoas)
        by (apply lookup_lt_Some in Hj; lia).
      rewrite Hget in Hj by done. injection Hj as <-.
      specialize (Hle j ltac:(done)). lia.
    + by rewrite Hlc.
    + by apply Hget.
Qed.
End wideband.

Lemma wideband_init_rejects_DM_witness :
  ∃ e, ex_wideband_init ex_wb_psr_DM = Raise e.
Proof.
  apply (wideband_init_rejects_DM _ _ _ _ _ _ _ _ _ _ _ ex_wb_psr_DM).
  simpl. apply list_elem_of_here.
Defined.

Lemma wideband_init_ok_inv_witness :
  ∃ self,
    ex_wideband_init ex_wb_psr_ok = Ok self
    ∧ WidebandTimingModel._ndmx self = size (psr_dmx ex_wb_psr_ok)
    ∧ WidebandTimingModel._npars self = 2.
Proof.
  destruct (ex_wideband_init ex_wb_psr_ok) as [self |] eqn:Hinit;
    [| by vm_compute in Hinit].
  exists self. split; [done |]. unfold ex_wideband_init in Hinit.
  pose proof (wideband_init_ok_inv _ _ _ _ _ _ _ _ _ _ _ ex_wb_psr_ok self
                Hinit) as (_ & _ & Hnp & Hnd & _).
  by split.
Defined.

Lemma wideband_init_coverage_witness :
  ∃ self,
    ex_wideband_init ex_wb_psr_ok = Ok self
    ∧ ∀ i, i < 2 → coverage (WidebandTimingModel._dmwhich self) i = 1.
Proof.
  destruct (ex_wideband_init ex_wb_psr_ok) as [self |] eqn:Hinit;
    [| by vm_compute in Hinit].
  exists self. split; [done |].
  assert (Hw : WidebandTimingModel._dmwhich self
               = [[true; false]; [false; true]]).
  { revert Hinit. vm_compute. by intros [= <-]. }
  unfold ex_wideband_init in Hinit.
  pose proof (wideband_init_coverage _ _ _ _ _ _ _ _ _ _ _ ex_wb_psr_ok
                self Hinit eq_refl) as [_ Hone].
  apply Hone. rewrite Hw. intros [| [| i]] Hi; simpl in Hi; [| | lia].
  - by vm_compute.
  - by vm_compute.
Defined.

(** ** The marginalizing solve engine *)

Lemma ln_1e40_pos : (0 < ln 1e40)%R.
Proof. rewrite <- ln_1. apply ln_increasing; lra. Qed.

(** The constructor needs a basis with a second axis: on a 0-d or 1-D
    basis it raises [IndexError]; otherwise it stores its arguments, and
    [Mprior] is not negative. *)
Theorem marginalizing_init_shape (id : nat) (M : array_obj) (N : noise) :
  (nv_ndim (arr_val M) < 2 →
   MarginalizingNmat.__init__ id M N = Raise IndexError)
  ∧ (2 ≤ nv_ndim (arr_val M) →
     ∃ self,
       MarginalizingNmat.__init__ id M N = Ok self
       ∧ MarginalizingNmat.m_id self = id
       ∧ MarginalizingNmat.Mmat self = M
       ∧ MarginalizingNmat.Nmat self = N
       ∧ Mprior_inv self
       ∧ (0 <= MarginalizingNmat.Mprior self)%R).
Proof.
  unfold MarginalizingNmat.__init__. destruct M as [i [[x | v | m] | d0 d1 d2 rest]];
    simpl; split; try lia; try done; intros _; eexists;
    (split_and!; [done | done | done | done | by eexists | simpl]).
  - apply Rmult_le_pos; [apply pos_INR | apply Rlt_le, ln_1e40_pos].
  - apply Rmult_le_pos; [apply pos_INR | apply Rlt_le, ln_1e40_pos].
Qed.

Lemma marginalizing_init_shape_witness :
  MarginalizingNmat.__init__ 10 ex_res (NInt 0) = Raise IndexError
  ∧ ∃ self, MarginalizingNmat.__init__ 10 ex_Mmat (NInt 0) = Ok self
            ∧ (0 <= MarginalizingNmat.Mprior self)%R.
Proof.
  destruct (marginalizing_init_shape 10 ex_res (NInt 0)) as [Hlow _].
  destruct (marginalizing_init_shape 10 ex_Mmat (NInt 0)) as [_ Hhigh].
  split; [apply Hlow; simpl; lia |].
  destruct Hhigh as (self & Hinit & _ & _ & _ & _ & Hpos); [simpl; lia |].
  by exists self.
Defined.

(** Addition keeps the basis and [Mprior]: the result of [self + other],
    when there is one, is [self] itself or a fresh instance whose noise is
    [self.Nmat + other], and it is again in the state [Mprior_inv]. *)
Theorem marginalizing_add_inv py_add (fresh : nat)
    (self new : MarginalizingNmat.obj) other :
  Mprior_inv self →
  MarginalizingNmat.__add__ py_add fresh self other = Ok new →
  Mprior_inv new
  ∧ MarginalizingNmat.Mmat new = MarginalizingNmat.Mmat self
  ∧ MarginalizingNmat.Mprior new = MarginalizingNmat.Mprior self
  ∧ (new = self
     ∨ (MarginalizingNmat.m_id new = fresh
        ∧ py_add (MarginalizingNmat.Nmat self) other
          = Ok (MarginalizingNmat.Nmat new))).
Proof.
  intros (k & Hk & Hp) Hadd.
  assert (Hnew : ∀ N, py_add (MarginalizingNmat.Nmat self) other = Ok N →
            MarginalizingNmat.__init__ fresh (MarginalizingNmat.Mmat self) N
            = Ok new →
            Mprior_inv new
            ∧ MarginalizingNmat.Mmat new = MarginalizingNmat.Mmat self
            ∧ MarginalizingNmat.Mprior new = MarginalizingNmat.Mprior self
            ∧ (new = self
               ∨ (MarginalizingNmat.m_id new = fresh
                  ∧ py_add (MarginalizingNmat.Nmat self) other
                    = Ok (MarginalizingNmat.Nmat new)))).
  { intros N HN. unfold MarginalizingNmat.__init__. rewrite Hk. simpl.
    intros [= <-]. simpl. split_and!; [by exists k | done | done |].
    right. by split. }
  assert (Hself : Mprior_inv self) by (by exists k).
  destruct other as [m | a | s | z | eq0]; simpl in Hadd.
  - done.
  - destruct (py_add _ _) as [N |] eqn:HN; simpl in Hadd; [| done].
    by apply (Hnew N).
  - destruct (py_add _ _) as [N |] eqn:HN; simpl in Hadd; [| done].
    by apply (Hnew N).
  - case_bool_decide; [| done]. injection Hadd as <-. auto.
  - destruct eq0; [| done]. injection Hadd as <-. auto.
Qed.

(** Two additions in a row, starting from [MarginalizingNmat(Mmat)]. *)
Lemma marginalizing_add_inv_witness :
  ∃ self new,
    MarginalizingNmat.__init__ 10 ex_Mmat (NInt 0) = Ok self
    ∧ MarginalizingNmat.__add__ ex_py_add 11 self
        (MarginalizingNmat.OpSolver ex_solver) = Ok new
    ∧ Mprior_inv new
    ∧ MarginalizingNmat.Mprior new = MarginalizingNmat.Mprior self.
Proof.
  destruct (MarginalizingNmat.__init__ 10 ex_Mmat (NInt 0)) as [self |]
    eqn:Hinit; [| by cbv in Hinit].
  assert (Hinv : Mprior_inv self).
  { revert Hinit. unfold MarginalizingNmat.__init__. simpl.
    intros [= <-]. exists 1. by split. }
  destruct (MarginalizingNmat.__add__ ex_py_add 11 self
              (MarginalizingNmat.OpSolver ex_solver)) as [new |] eqn:Hadd.
  - exists self, new.
    destruct (marginalizing_add_inv ex_py_add 11 self new _ Hinv Hadd)
      as (Hinv' & _ & Hp & _).
    split_and!; done.
  - exfalso. revert Hadd. revert Hinit. cbv -[Rmult INR ln IZR].
    by intros [= <-].
Defined.

(** The flag [logdet] matters only for a vector against itself: in every
    other case [solve] returns the same with and without it. *)
Theorem solve_ignores_logdet cholesky np_tensordot
    (self : MarginalizingNmat.obj) (right : array_obj)
    (left_array : option array_obj) :
  ¬ (nv_ndim (arr_val right) = 1
     ∧ MarginalizingNmat.is_right left_array right = true) →
  MarginalizingNmat.solve cholesky np_tensordot self right left_array true
  = MarginalizingNmat.solve cholesky np_tensordot self right left_array
      false.
Proof.
  intros Hnot. unfold MarginalizingNmat.solve.
  destruct (bool_decide (nv_ndim (arr_val right) = 1)
            && MarginalizingNmat.is_right left_array right) eqn:Hc;
    [| done].
  apply andb_true_iff in Hc as [H1%bool_decide_eq_true H2]. tauto.
Qed.

Lemma solve_ignores_logdet_witness :
  ∃ m, ex_marg = Ok m
       ∧ ex_marg_solve m ex_res (Some ex_Mmat) true
         = ex_marg_solve m ex_res (Some ex_Mmat) false.
Proof.
  destruct ex_marg as [m |] eqn:Hm; [| by cbv in Hm].
  exists m. split; [done |].
  apply (solve_ignores_logdet ex_cholesky ex_tensordot m ex_res
           (Some ex_Mmat)).
  intros [_ H]. by vm_compute in H.
Defined.

(** An engine whose noise is not an object with [solve] (the default [0],
    or an array) cannot solve.  Every call raises: [AttributeError] when
    the arguments select one of the four branches, each of which first
    calls [self.Nmat.solve], and [ValueError] otherwise. *)
Theorem solve_without_noise_raises cholesky np_tensordot
    (self : MarginalizingNmat.obj) (right : array_obj)
    (left_array : option array_obj) (logdet : bool) :
  (∀ s, MarginalizingNmat.Nmat self ≠ NSolver s) →
  let nd := nv_ndim (arr_val right) in
  let selected :=
    ∃ l, left_array = Some l
       ∧ ((nd = 1 ∧ py_is l right = true)
          ∨ (nd = 1 ∧ nv_ndim (arr_val l) = 2)
          ∨ (nd = 2 ∧ py_is l right = true)
          ∨ (nd = nv_ndim (arr_val l) ∧ nd ≤ 2)) in
  let r :=
    MarginalizingNmat.solve cholesky np_tensordot self right left_array
      logdet in
  (selected → r = Raise AttributeError)
  ∧ (¬ selected →
     r = Raise (ValueError
                  "Incorrect arguments given to MarginalizingNmat.solve.")).
Proof.
  intros Hno nd selected r. unfold r, MarginalizingNmat.solve. fold nd.
  assert (H1 : ∀ a b, MarginalizingNmat.Nmat_solve self a b
                      = Raise AttributeError).
  { intros a b. unfold MarginalizingNmat.Nmat_solve.
    destruct (MarginalizingNmat.Nmat self) as [z | a' | s] eqn:HN;
      [done | done | by destruct (Hno s)]. }
  assert (H2 : ∀ a b, MarginalizingNmat.Nmat_solve_logdet self a b
                      = Raise AttributeError).
  { intros a b. unfold MarginalizingNmat.Nmat_solve_logdet.
    destruct (MarginalizingNmat.Nmat self) as [z | a' | s] eqn:HN;
      [done | done | by destruct (Hno s)]. }
  assert (Hv : MarginalizingNmat.solve_vector_self cholesky self right logdet
               = Raise AttributeError).
  { unfold MarginalizingNmat.solve_vector_self. by rewrite H2. }
  assert (Hb : ∀ l, MarginalizingNmat.solve_vector_basis cholesky
                      np_tensordot self right l = Raise AttributeError).
  { intros l. unfold MarginalizingNmat.solve_vector_basis. by rewrite H1. }
  assert (Hm : MarginalizingNmat.solve_matrix_self cholesky np_tensordot
                 self right = Raise AttributeError).
  { unfold MarginalizingNmat.solve_matrix_self. by rewrite H1. }
  assert (Hg : ∀ l, MarginalizingNmat.solve_general cholesky np_tensordot
                      self right l = Raise AttributeError).
  { intros l. unfold MarginalizingNmat.solve_general. by rewrite H1. }
  rewrite Hv, Hm. unfold selected.
  destruct left_array as [l |]; simpl.
  - rewrite Hb, Hg. split.
    + intros (l' & [= <-] & Hsel).
      repeat match goal with
             | |- context [if ?b then _ else _] => destruct b eqn:?
             end; try done.
      exfalso.
      repeat match goal with
             | H : _ && _ = false |- _ => apply andb_false_iff in H
             end.
      destruct Hsel as [[Hn Hi] | [[Hn Hl] | [[Hn Hi] | [Hn Hle]]]];
        repeat match goal with
               | H : _ ∨ _ |- _ => destruct H
               | H : bool_decide _ = false |- _ =>
                   apply bool_decide_eq_false_1 in H
               end; congruence.
    + intros Hns.
      repeat match goal with
             | |- context [if ?b then _ else _] => destruct b eqn:?
             end; try done; exfalso; apply Hns; exists l; (split; [done |]);
        repeat match goal with
               | H : _ && _ = true |- _ => apply andb_true_iff in H as [? ?]
               end;
        repeat match goal with
               | H : bool_decide _ = true |- _ =>
                   apply bool_decide_eq_true_1 in H
               end; tauto.
  - rewrite andb_false_r. split; [by intros (l & Hl & _) | done].
Qed.

(** An engine created with the default noise [0]: a vector against itself
    selects the first branch, a vector without [left_array] none. *)
Lemma solve_without_noise_raises_witness :
  ∃ self,
    MarginalizingNmat.__init__ 10 ex_Mmat (NInt 0) = Ok self
    ∧ ex_marg_solve self ex_res (Some ex_res) true = Raise AttributeError
    ∧ ex_marg_solve self ex_res None true
      = Raise (ValueError
                 "Incorrect arguments given to MarginalizingNmat.solve.").
Proof.
  destruct (MarginalizingNmat.__init__ 10 ex_Mmat (NInt 0)) as [self |]
    eqn:Hinit; [| by cbv in Hinit].
  assert (Hno : ∀ s, MarginalizingNmat.Nmat self ≠ NSolver s).
  { intros s. revert Hinit. unfold MarginalizingNmat.__init__. simpl.
    by intros [= <-]. }
  exists self. split; [done |]. split.
  - destruct (solve_without_noise_raises ex_cholesky ex_tensordot self
                ex_res (Some ex_res) true Hno) as [Hsel _].
    apply Hsel. exists ex_res. split; [done |]. left. by vm_compute.
  - destruct (solve_without_noise_raises ex_cholesky ex_tensordot self
                ex_res None true Hno) as [_ Hnot].
    apply Hnot. by intros (l & Hl & _).
Defined.

(** ** Shape and errors of the FFT PSD *)

(** For a generator that returns one value per frequency: with
    [cutbins = 0] and at least two frequencies the PSD has one bin per
    frequency; with [cutbins > 0] it has [max(cutbins, len(freqs))] bins,
    so one per frequency exactly when [cutbins] does not exceed their
    number. *)
Theorem fft_psd_length (prior : list R -> result ndarray) (freqs : list R)
    (cutbins : Z) :
  (∀ fs, ∃ v, prior fs = Ok (Nd1 v) ∧ length v = length fs) →
  (cutbins = 0%Z → 2 ≤ length freqs →
   ∃ psd, fft_psd prior freqs cutbins = Ok (Nd1 psd)
          ∧ length psd = length freqs)
  ∧ ((0 < cutbins)%Z →
     ∃ psd, fft_psd prior freqs cutbins = Ok (Nd1 psd)
            ∧ length psd = Z.to_nat cutbins `max` length freqs).
Proof.
  intros Hprior. split.
  - intros -> Hlen.
    destruct freqs as [| f0 [| f1 rest]]; simpl in Hlen; [lia | lia |].
    destruct (Hprior (f1 :: f0 :: f1 :: rest)) as (v & Hv & Hlv).
    destruct v as [| p0 [| p1 ps]]; simpl in Hlv; [lia | lia |].
    exists ((- p1)%R :: ps). split.
    + by apply (fft_psd_zero prior (f0 :: f1 :: rest) f1 (p0 :: p1 :: ps) p1).
    + simpl in *. lia.
  - intros Hc. destruct (Hprior (drop 1 freqs)) as (v & Hv & Hlv).
    eexists. split; [by apply fft_psd_cut |].
    rewrite length_app, length_drop. unfold np_zeros1.
    rewrite length_replicate, Hlv, length_drop. lia.
Qed.

Lemma fft_psd_length_witness :
  let prior := fun fs => Ok (Nd1 ((fun f => f + 1)%R <$> fs)) in
  (∃ psd, fft_psd prior [0; 1; 2]%R 0 = Ok (Nd1 psd) ∧ length psd = 3)
  ∧ (∃ psd, fft_psd prior [0; 1; 2]%R 5 = Ok (Nd1 psd) ∧ length psd = 5).
Proof.
  intros prior.
  assert (Hprior : ∀ fs, ∃ v, prior fs = Ok (Nd1 v) ∧ length v = length fs).
  { intros fs. eexists. split; [done |]. by rewrite length_fmap. }
  destruct (fft_psd_length prior [0; 1; 2]%R 0 Hprior) as [H0 _].
  destruct (fft_psd_length prior [0; 1; 2]%R 5 Hprior) as [_ H5].
  split; [apply H0; [done | simpl; lia] | apply H5; lia].
Defined.

(** Errors of the PSD construction: with [cutbins = 0] fewer than two
    frequencies raise [IndexError] (there is no [freqs[1]]), and so does a
    generator output with fewer than two values; a negative [cutbins]
    raises [ValueError]; a 0-d generator output raises [IndexError]. *)
Theorem fft_psd_errors (prior : list R -> result ndarray) (freqs : list R)
    (cutbins : Z) :
  (cutbins = 0%Z → length freqs < 2 →
   fft_psd prior freqs cutbins = Raise IndexError)
  ∧ (∀ f1 v, cutbins = 0%Z → freqs !! 1 = Some f1 →
       prior (f1 :: freqs) = Ok (Nd1 v) → length v < 2 →
       fft_psd prior freqs cutbins = Raise IndexError)
  ∧ (∀ a, (cutbins < 0)%Z → prior (drop 1 freqs) = Ok a →
       fft_psd prior freqs cutbins
       = Raise (ValueError "negative dimensions are not allowed"))
  ∧ (∀ x, (0 < cutbins)%Z → prior (drop 1 freqs) = Ok (Nd0 x) →
       fft_psd prior freqs cutbins = Raise IndexError).
Proof.
  unfold fft_psd. split_and!.
  - intros -> Hlen. rewrite bool_decide_eq_true_2 by done.
    rewrite (proj2 (lookup_ge_None freqs 1)) by lia. done.
  - intros f1 v -> Hf Hv Hlen. rewrite bool_decide_eq_true_2 by done.
    rewrite Hf. simpl. rewrite Hv. simpl.
    rewrite (proj2 (lookup_ge_None v 1)) by lia. done.
  - intros a Hc Ha. rewrite bool_decide_eq_false_2 by lia.
    rewrite Ha. simpl. by rewrite bool_decide_eq_true_2 by lia.
  - intros x Hc Hx. rewrite bool_decide_eq_false_2 by lia.
    rewrite Hx. simpl. by rewrite bool_decide_eq_false_2 by lia.
Qed.

Lemma fft_psd_errors_witness :
  let prior := fun fs => Ok (Nd1 ((fun f => f + 1)%R <$> fs)) in
  fft_psd prior [0%R] 0 = Raise IndexError
  ∧ fft_psd prior [0; 1; 2]%R (-1)
    = Raise (ValueError "negative dimensions are not allowed").
Proof.
  intros prior.
  destruct (fft_psd_errors prior [0%R] 0) as (H0 & _).
  destruct (fft_psd_errors prior [0; 1; 2]%R (-1)) as (_ & _ & Hneg & _).
  split; [apply H0; [done | simpl; lia] |].
  by apply (Hneg (Nd1 ((fun f => f + 1)%R <$> [1; 2]%R))).
Defined.

(** ** Construction of [BasisGP] signals *)

(** Building the basis reads only what [__init__] has set: built again from
    the object it returns, for any parameters, it gives what it gives from
    the original object; in particular a second call with the same
    parameters changes nothing. *)
Theorem construct_basis_reentrant (self self1 : BasisGP_obj)
    (params params' : params_t) :
  _construct_basis self params = Ok self1 →
  _construct_basis self1 params' = _construct_basis self params'
  ∧ _construct_basis self1 params = Ok self1.
Proof.
  intros H. assert (Hre : ∀ p, _construct_basis self1 p
                               = _construct_basis self p).
  { unfold _construct_basis in H.
    destruct (eval_bases _ _ _ _ _) as [[basis labels] |]; simpl in H;
      [| done].
    destruct (_masks self !! 0) as [mask0 |]; simpl in H; [| done].
    destruct (place_blocks _ _ _ _ _) as [[[B slices] n] |]; simpl in H;
      [| done].
    injection H as <-. done. }
  split; [apply Hre | by rewrite Hre].
Qed.

Lemma construct_basis_reentrant_witness :
  ∃ self self1,
    ex_init false = Ok self ∧ _construct_basis self ∅ = Ok self1
    ∧ _construct_basis self1 ex_params = _construct_basis self ex_params
    ∧ _construct_basis self1 ∅ = Ok self1.
Proof.
  destruct (ex_init false) as [self |] eqn:Hinit; [| by vm_compute in Hinit].
  destruct (_construct_basis self ∅) as [self1 |] eqn:Hc;
    [| revert Hc; vm_compute in Hinit; injection Hinit as <-;
       by vm_compute].
  exists self, self1. split; [done |]. split; [done |].
  apply (construct_basis_reentrant self self1 ∅ ex_params Hc).
Defined.

(** A selection without keys leaves nothing to build the basis from: the
    coefficient class cannot be instantiated ([IndexError] from
    [self._masks[0]]), and the marginalized class is instantiated but its
    [get_basis] and [get_phi] raise [IndexError]. *)
Theorem empty_selection_raises priorFunction basisFunction selection name
    GPCoefficients KernelMatrix_set (psr : Pulsar) (params : params_t) :
  selection psr = ∅ →
  BasisGP_init priorFunction basisFunction true selection name
    GPCoefficients psr = Raise IndexError
  ∧ ∃ self,
      BasisGP_init priorFunction basisFunction false selection name
        GPCoefficients psr = Ok self
      ∧ _keys self = []
      ∧ get_basis false self params = Raise IndexError
      ∧ get_phi false KernelMatrix_set self params = Raise IndexError.
Proof.
  intros Hsel. unfold BasisGP_init. rewrite Hsel, map_to_list_empty.
  simpl. split; [done |]. eexists. split; [done |]. done.
Qed.

Lemma empty_selection_raises_witness :
  BasisGP_init ex_prior ex_basis true (fun _ => ∅) "gp" ex_GPCoefficients
    ex_psr = Raise IndexError.
Proof.
  by apply (empty_selection_raises ex_prior ex_basis (fun _ => ∅) "gp"
              ex_GPCoefficients (fun phi _ _ => phi) ex_psr ∅).
Defined.

Section coefficient_parameters.
Variable priorFunction : string -> Pulsar -> prior_fn.
Variable basisFunction : string -> Pulsar -> basis_fn.
Variable selection : selection_t.
Variable name : string.
Variable GPCoefficients : nat -> string -> parameter.

(** The coefficient parameter that [__init__] creates for [key] when its
    slice is [slice(start, stop)]. *)
Let cpar (psr : Pulsar) (key : string) (start stop : nat) : parameter :=
  GPCoefficients (stop - start)
    (join_names [psr_name psr; name; key] +:+ "_coefficients").

Lemma make_coefficients_values psr keys s0 s' :
  foldl (fun acc key =>
           self ← acc;
           let pname := join_names [psr_name psr; name; key] in
           '(start, stop) ← of_option KeyError (od_get (_slices self) key);
           let size := stop - start in
           let cpar := GPCoefficients size (pname +:+ "_coefficients") in
           Ok (MkBasisGP (name_ self) (_keys self) (_masks self)
                 (_prior self) (_bases self)
                 (<[par_name cpar := cpar]> (_params self))
                 (od_set (_coefficients self) key cpar)
                 (_labels self) (_basis self) (_phi self) (_slices self)))
        (Ok s0) keys = Ok s' →
  _slices s' = _slices s0 ∧ _basis s' = _basis s0
  ∧ (∀ k, k ∈ keys →
       ∃ start stop,
         od_get (_slices s0) k = Some (start, stop)
         ∧ od_get (_coefficients s') k = Some (cpar psr k start stop))
  ∧ (∀ k, k ∉ keys →
       od_get (_coefficients s') k = od_get (_coefficients s0) k).
Proof.
  revert s0. induction keys as [| key keys IH]; simpl; intros s0.
  - intros [= <-]. split_and!; [done | done | | done].
    intros k Hk. by apply elem_of_nil in Hk.
  - destruct (od_get (_slices s0) key) as [[start stop] |] eqn:Hslc; simpl.
    + intros Hf. apply IH in Hf as (Hs & Hb & Hin & Hout). simpl in *.
      split_and!; [done | done | |].
      * intros k Hk. destruct (decide (k ∈ keys)) as [Hk' | Hk'].
        { by apply Hin. }
        apply elem_of_cons in Hk as [-> | Hk]; [| done].
        exists start, stop. split; [done |].
        rewrite (Hout key Hk'), od_get_set. by rewrite decide_True.
      * intros k Hk. apply not_elem_of_cons in Hk as [Hne Hk].
        rewrite (Hout k Hk), od_get_set. by rewrite decide_False.
    + intros Hf. exfalso. revert Hf. clear. generalize KeyError.
      induction keys as [| k keys IH]; simpl; [done | apply IH].
Qed.

(** In coefficient mode [__init__] gives every selection key a coefficient
    parameter whose size is the width of the key's column slice and whose
    name is the key's parameter prefix followed by [_coefficients]. *)
Theorem init_coefficient_parameters psr self :
  BasisGP_init priorFunction basisFunction true selection name
    GPCoefficients psr = Ok self →
  ∀ key, key ∈ _keys self →
    ∃ start stop,
      od_get (_slices self) key = Some (start, stop)
      ∧ od_get (_coefficients self) key
        = Some (GPCoefficients (stop - start)
                  (join_names [psr_name psr; name; key]
                   +:+ "_coefficients")).
Proof.
  unfold BasisGP_init.
  destruct (bind_functions _ _ _ _ _) as [[prior bases] pars].
  destruct (_construct_basis _ ∅) as [s1 |] eqn:Hc; simpl; [| done].
  unfold make_coefficients. intros Hm key Hkey.
  pose proof (make_coefficients_spec name GPCoefficients psr _ _ _ Hm)
    as (Hk & _ & _).
  apply make_coefficients_values in Hm as (Hs & _ & Hin & _).
  rewrite Hk in Hkey. destruct (Hin key Hkey) as (start & stop & H1 & H2).
  exists start, stop. by rewrite Hs.
Qed.
End coefficient_parameters.

Lemma init_coefficient_parameters_witness :
  ∃ self,
    ex_init true = Ok self
    ∧ ∃ start stop,
        od_get (_slices self) "a" = Some (start, stop)
        ∧ od_get (_coefficients self) "a"
          = Some (ex_GPCoefficients (stop - start)
                    (join_names [psr_name ex_psr; "gp"; "a"]
                     +:+ "_coefficients")).
Proof.
  destruct (ex_init true) as [self |] eqn:Hinit; [| by vm_compute in Hinit].
  exists self. split; [done |].
  apply (init_coefficient_parameters ex_prior ex_basis ex_selection "gp"
           ex_GPCoefficients ex_psr self Hinit).
  revert Hinit. vm_compute. intros [= <-]. apply list_elem_of_here.
Defined.

(** ** Common signals *)

(** The diagonal block of a marginalized common signal is its cross term
    with itself: [get_phi(params)] builds the basis and returns what
    [get_phicross(self, self, params)] returns on the object so built. *)
Theorem common_get_phi_is_self_cross priorFunction orfFunction name
    (self : BasisCommonGP.obj) (params : params_t) :
  BasisCommonGP.get_phi priorFunction orfFunction CoefFalse name self params
  = (let self' := BasisCommonGP._construct_basis self params in
     phi ← BasisCommonGP.get_phicross priorFunction orfFunction CoefFalse
             name self' self' params;
     Ok (self', phi)).
Proof.
  unfold BasisCommonGP.get_phi, BasisCommonGP.get_phicross,
    BasisCommonGP._construct_prior, BasisCommonGP._construct_basis. simpl.
  destruct (cbf_call (BasisCommonGP._bases self) params) as [B lab]. simpl.
  by destruct (np_mul _ _).
Qed.

(** A common signal with coefficients holds one coefficient parameter,
    under the key [""] and registered under its own name: the instance
    given to the factory, or a [GPCoefficients] of the size of the basis
    built with default parameters.  Its [get_delay(params)] is the basis
    for [params] times the sampled value of that parameter when [params]
    holds its name; otherwise the call reads [p.value] and raises
    [AttributeError] when the parameter has no such attribute. *)
Theorem common_coefficient_delay priorFunction basisFunction orfFunction
    coefficients name GPCoefficients (psr : Pulsar)
    (self : BasisCommonGP.obj) (params : params_t) :
  truthy coefficients = true →
  BasisCommonGP.__init__ priorFunction basisFunction orfFunction coefficients
    name GPCoefficients psr = Ok self →
  let pname := str_join "_" [psr_name psr; name] in
  let delay c :=
    d ← np_dot (cbf_call (BasisCommonGP._bases self) params).1 c;
    Ok (BasisCommonGP._construct_basis self params, PyArr d) in
  ∃ cpar,
    od_get (BasisCommonGP._coefficients self) EmptyString = Some cpar
    ∧ BasisCommonGP._params self !! par_name cpar = Some cpar
    ∧ (∀ p, coefficients = CoefParameter p → cpar = p)
    ∧ (coefficients = CoefTrue →
       cpar = GPCoefficients
                (mcols (cbf_call (basisFunction pname psr) ∅).1)
                (pname +:+ "_coefficients"))
    ∧ (∀ v, params !! par_name cpar = Some v →
         BasisCommonGP.get_delay coefficients self params = delay v)
    ∧ (params !! par_name cpar = None →
       BasisCommonGP.get_delay coefficients self params
       = match par_value cpar with
         | Some v => delay v
         | None => Raise AttributeError
         end).
Proof.
  intros Htruthy Hinit pname delay. revert Hinit. unfold delay.
  unfold BasisCommonGP.__init__, BasisCommonGP.get_delay,
    BasisCommonGP._construct_basis, current_value.
  rewrite Htruthy. fold pname. simpl.
  destruct coefficients as [| | p]; [done | |];
    destruct (cbf_call (basisFunction pname psr) ∅) as [B0 lab0];
    simpl; intros [= <-]; simpl;
    destruct (cbf_call (basisFunction pname psr) params) as [B lab];
    simpl; eexists;
    (split_and!; [done | by rewrite lookup_insert_eq | | | |]).
  - done.
  - done.
  - by intros v ->.
  - intros ->. by destruct (par_value _).
  - by intros ? [= ->].
  - done.
  - by intros v ->.
  - intros ->. by destruct (par_value _).
Qed.

(** A pair of pulsars' common signal, called with its coefficient sampled
    and with the default [params]. *)
Lemma common_coefficient_delay_witness :
  ∃ self cpar,
    BasisCommonGP.__init__ ex_common_prior ex_common_basis ex_orf CoefTrue
      "gw" ex_GPCoefficients ex_psrB = Ok self
    ∧ od_get (BasisCommonGP._coefficients self) EmptyString = Some cpar
    ∧ par_name cpar = "B_gw_coefficients"
    ∧ BasisCommonGP.get_delay CoefTrue self ∅ = Raise AttributeError
    ∧ BasisCommonGP.get_delay CoefTrue self
        {[ "B_gw_coefficients" := Nd1 [2%R] ]}
      = (d ← np_dot (cbf_call (BasisCommonGP._bases self)
                       {[ "B_gw_coefficients" := Nd1 [2%R] ]}).1
               (Nd1 [2%R]);
         Ok (BasisCommonGP._construct_basis self
               {[ "B_gw_coefficients" := Nd1 [2%R] ]}, PyArr d)).
Proof.
  destruct (BasisCommonGP.__init__ ex_common_prior ex_common_basis ex_orf
              CoefTrue "gw" ex_GPCoefficients ex_psrB) as [self |] eqn:Hinit;
    [| by vm_compute in Hinit].
  destruct (common_coefficient_delay ex_common_prior ex_common_basis ex_orf
              CoefTrue "gw" ex_GPCoefficients ex_psrB self ∅ eq_refl Hinit)
    as (cpar & Hc & _ & _ & Hpar & _ & Hnone).
  destruct (common_coefficient_delay ex_common_prior ex_common_basis ex_orf
              CoefTrue "gw" ex_GPCoefficients ex_psrB self
              {[ "B_gw_coefficients" := Nd1 [2%R] ]} eq_refl Hinit)
    as (cpar' & Hc' & _ & _ & _ & Hsome & _).
  rewrite Hc in Hc'. injection Hc' as <-.
  specialize (Hpar eq_refl).
  assert (Hname : par_name cpar = "B_gw_coefficients") by (by rewrite Hpar).
  exists self, cpar. split_and!; [done | done | done | |].
  - rewrite (Hnone (lookup_empty _)). by rewrite Hpar.
  - apply Hsome. rewrite Hname. apply lookup_singleton_eq.
Defined.

(** ** The number of knots of the FFT bases *)

(** The FFT factories build their time basis on an odd number of knots:
    [2 * components + 1] when [nknots] is not given, [nknots] itself when
    it is odd, and [ValueError] when it is even. *)
Theorem fft_nknots_odd (nknots : option Z) (components : Z) :
  (∀ n, fft_nknots nknots components = Ok n →
     (n mod 2 = 1)%Z
     ∧ (nknots = Some n ∨ (nknots = None ∧ n = 2 * components + 1)%Z))
  ∧ (fft_nknots nknots components
     = Raise (ValueError "Knots needs to be an odd number")
     ↔ ∃ n, nknots = Some n ∧ (n mod 2 = 0)%Z).
Proof.
  unfold fft_nknots. destruct nknots as [k |].
  - case_bool_decide as Hk; split.
    + done.
    + split; [by exists k | done].
    + intros n [= <-]. split; [| by left].
      pose proof (Z.mod_pos_bound k 2 ltac:(lia)). lia.
    + split; [done | by intros (n & [= <-] & Hn)].
  - split.
    + intros n [= <-]. split; [| by right].
      rewrite Z.add_comm, Z.mul_comm, Z.mod_add by lia. done.
    + split; [done | by intros (n & Hn & _)].
Qed.

Lemma fft_nknots_odd_witness :
  fft_nknots None 20 = Ok 41%Z ∧ (41 mod 2 = 1)%Z
  ∧ fft_nknots (Some 40%Z) 20
    = Raise (ValueError "Knots needs to be an odd number").
Proof.
  destruct (fft_nknots_odd None 20) as [Hodd _].
  destruct (fft_nknots_odd (Some 40%Z) 20) as [_ Heven].
  split; [done |]. split; [by apply (Hodd 41%Z) |].
  apply Heven. by exists 40%Z.
Defined.

(** ** The parameters of the wideband timing model *)

Lemma foldl_invariant {A B} (P : A → Prop) (f : A → B → A) (a : A)
    (l : list B) :
  P a → (∀ a x, P a → P (f a x)) → P (foldl f a l).
Proof.
  intros Ha Hstep. revert a Ha.
  induction l as [| x l IH]; simpl; intros a Ha; [done |].
  apply IH. by apply Hstep.
Qed.

(** The parameters that the constructor registers are the delay
    parameters: a name is a key of [_params] exactly when [delay_params]
    lists it. *)
Theorem wideband_delay_params_registered dmefac log10_dmequad dmjump
    selection dmjump_selection dmjump_ref name basis prior no_selection
    GPCoefficients (psr : Pulsar) (self : WidebandTimingModel.obj) :
  WidebandTimingModel.__init__ dmefac log10_dmequad dmjump selection
    dmjump_selection dmjump_ref name basis prior no_selection GPCoefficients
    psr = Ok self →
  ∀ n, n ∈ WidebandTimingModel.delay_params self
       ↔ is_Some (_params (WidebandTimingModel.base self) !! n).
Proof.
  unfold WidebandTimingModel.__init__.
  destruct (WidebandTimingModel.BaseClass_init _ _ _ _ _ _) as [b |];
    simpl; [| done].
  set (dm_keys := sorted (map_to_list (selection psr)).*1).
  set (dj_keys := sorted (map_to_list (dmjump_selection psr)).*1).
  destruct (_ && _); [done |].
  assert (Hdm :
    (fun '(efacs, equads, pars) =>
       ∀ n, n ∈ (par_name <$> efacs) ++ (par_name <$> equads)
            ↔ is_Some ((pars : gmap string parameter) !! n))
      (WidebandTimingModel.dm_params dmefac log10_dmequad psr dm_keys)).
  { unfold WidebandTimingModel.dm_params. apply foldl_invariant.
    - intros n. simpl. rewrite lookup_empty. split; [| by intros []].
      intros H. by apply elem_of_nil in H.
    - intros [[e q] p] key IH. destruct log10_dmequad as [mk |]; intros n;
        rewrite ?fmap_app, ?lookup_insert_is_Some'; simpl;
        specialize (IH n); rewrite !elem_of_app in *;
        rewrite ?list_elem_of_singleton; naive_solver. }
  destruct (WidebandTimingModel.dm_params _ _ _ _) as [[efacs equads] pars].
  assert (Hj :
    (fun '(jumps, pars') =>
       ∀ n, n ∈ (par_name <$> efacs) ++ (par_name <$> equads)
                ++ (par_name <$> jumps)
            ↔ is_Some ((pars' : gmap string parameter) !! n))
      (WidebandTimingModel.dmjump_params dmjump dmjump_ref psr dj_keys
         pars)).
  { unfold WidebandTimingModel.dmjump_params.
    destruct dmjump as [mk |].
    - apply foldl_invariant.
      + intros n. simpl. rewrite app_nil_r. apply Hdm.
      + intros [j p] key IH n. rewrite fmap_app, lookup_insert_is_Some'.
        simpl. specialize (IH n). rewrite !elem_of_app in *.
        rewrite list_elem_of_singleton. naive_solver.
    - intros n. simpl. rewrite app_nil_r. apply Hdm. }
  destruct (WidebandTimingModel.dmjump_params _ _ _ _ _) as [jumps pars'].
  destruct (WidebandTimingModel.assign_dmx psr)
    as [[[[dmxs idxs] whichs] check] |]; simpl; try done.
  repeat case_bool_decide; simpl; try done.
  intros [= <-] n. unfold WidebandTimingModel.delay_params. simpl.
  apply Hj.
Qed.

(** The wideband model of the example pulsar registers a DMEFAC and a
    DMEQUAD under the one selection key, and these are its delay
    parameters. *)
Lemma wideband_delay_params_registered_witness :
  ∃ self,
    ex_wideband_init ex_wb_psr_ok = Ok self
    ∧ WidebandTimingModel.delay_params self
      = ["J1_dmefac"; "J1_log10_dmequad"]
    ∧ ∀ n, n ∈ WidebandTimingModel.delay_params self
           ↔ is_Some (_params (WidebandTimingModel.base self) !! n).
Proof.
  destruct (ex_wideband_init ex_wb_psr_ok) as [self |] eqn:Hinit;
    [| by vm_compute in Hinit].
  exists self. split_and!; [done | |].
  - revert Hinit. vm_compute. by intros [= <-].
  - unfold ex_wideband_init in Hinit.
    apply (wideband_delay_params_registered _ _ _ _ _ _ _ _ _ _ _ _ _ Hinit).
Defined.
